(** * The hub connection engine of the SignalR server (hubconnection.go)

    A shallow embedding of [defaultHubConnection]: its lifecycle flag, the
    abort listener started by [newHubConnection], the guarded send path
    ([writeMessage]) with the five public senders, [Close], and the
    message-assembly loop of [Receive].

    Goroutines and [select] are embedded by explicit state passing.  Every
    blocking point takes the facts that the Go scheduler and the collaborators
    decide: what the transport or the codec answers (or that it never
    answers), whether the context is cancelled while the call is parked, and
    which ready case a [select] takes. *)

From Stdlib Require Import List String ZArith NArith Bool Arith Lia.
From Stdlib.Strings Require Import Byte Ascii.
Import ListNotations.
Open Scope string_scope.
Open Scope list_scope.

(** Bytes of the transport. *)
Abbreviation byte := Byte.byte.

(** ** Errors and contexts *)

(** Go [error] values met by the engine.  [nil] is [None] in [option error]. *)
Inductive error : Type :=
| context_Canceled
| context_DeadlineExceeded
| io_error (text : string)
| Wrapped (msg : string) (cause : error).

(** [eris.Wrap(err, msg)] of github.com/rotisserie/eris: the wrapper of a
    nil error is nil, any other error is wrapped with the message. *)
Definition Wrap (err : option error) (msg : string) : option error :=
  match err with
  | None => None
  | Some e => Some (Wrapped msg e)
  end.

(** [time.Time] readings and [chan error] identities. *)
Definition Time := Z.
Definition chan := nat.

(** What a blocking call does: it returns a value, or the goroutine stays
    parked for ever. *)
Inductive Outcome (A : Type) : Type :=
| Returns (a : A)
| Blocks.
Arguments Returns {A} a.
Arguments Blocks {A}.

(** The two communications of the engine's [select] statements. *)
Inductive Race : Type :=
| OpFirst
| DoneFirst.

Inductive Selected (A : Type) : Type :=
| SelDone
| SelOp (a : A)
| SelBlocked.
Arguments SelDone {A}.
Arguments SelOp {A} a.
Arguments SelBlocked {A}.

(** [select { case <-c.ctx.Done(): ...; case r := <-ch: ... }].
    [done] says that the context has ended, [op] is the value the spawned
    operation puts on its channel ([None] when it never does).  When both
    communications can proceed, [pick] is the one that is taken. *)
Definition select {A : Type} (done : bool) (op : option A) (pick : Race)
  : Selected A :=
  match done, op with
  | true, Some a => match pick with DoneFirst => SelDone | OpFirst => SelOp a end
  | true, None => SelDone
  | false, Some a => SelOp a
  | false, None => SelBlocked
  end.

(** A cancellation that reaches the engine: its own [cancelFunc], or the end
    of the transport's context with the given cause. *)
Inductive CancelSource : Type :=
| ByAbort
| ByUpstream (cause : error).

(** The answer of [protocol.WriteMessage]. *)
Inductive WriteOutcome : Type :=
| WriteReturns (err : option error)
| WriteHangs.

Definition write_result (w : WriteOutcome) : option (option error) :=
  match w with
  | WriteReturns err => Some err
  | WriteHangs => None
  end.

Definition isSome {A : Type} (o : option A) : bool :=
  match o with Some _ => true | None => false end.

(** The dynamic values [Receive] returns in its first result: [nil], the
    byte count of a failed read, or what the codec decoded. *)
Inductive iface (D : Type) : Type :=
| INil
| IInt (n : Z)
| IMsg (m : D).
Arguments INil {D}.
Arguments IInt {D} n.
Arguments IMsg {D} m.

(** The answer of [connection.Read(data)]: the bytes the transport has for
    this call and its error, or no answer at all. *)
Inductive ReadOutcome : Type :=
| ReadReturns (p : list byte) (err : option error)
| ReadHangs.

(** One pass through the [select] of the assembly loop: the answer of the
    transport, a cancellation arriving meanwhile, and the case taken when
    both are ready. *)
Record ReadStep : Type := mkReadStep {
  rs_read : ReadOutcome;
  rs_during : option CancelSource;
  rs_pick : Race
}.

Section Engine.

(** Payloads of type [interface{}] are opaque to the engine. *)
Context {any : Type}.

(** ** Message model: the struct literals built by the senders *)

Record hubMessage : Type := mkHubMessage {
  hub_Type : Z
}.

Record invocationMessage : Type := mkInvocationMessage {
  inv_Type : Z;
  inv_InvocationID : string;
  inv_Target : string;
  inv_Arguments : list any;
  inv_StreamIds : list string
}.

Record streamItemMessage : Type := mkStreamItemMessage {
  item_Type : Z;
  item_InvocationID : string;
  item_Item : any
}.

Record completionMessage : Type := mkCompletionMessage {
  compl_Type : Z;
  compl_InvocationID : string;
  compl_Result : any;
  compl_Error : string
}.

Record closeMessage : Type := mkCloseMessage {
  close_Type : Z;
  close_Error : string;
  close_AllowReconnect : bool
}.

(** The [interface{}] handed to [writeMessage] and to the codec. *)
Inductive Message : Type :=
| MHub (m : hubMessage)
| MInvocation (m : invocationMessage)
| MStreamItem (m : streamItemMessage)
| MCompletion (m : completionMessage)
| MClose (m : closeMessage).

(** ** The engine *)

(** The fields of the Go struct.  Collaborators are kept by what the engine
    can observe of them: [ctx] is [c.ctx.Err()], [connection] is
    [c.connection.Context().Err()], [protocol] lists the messages given to
    [c.protocol.WriteMessage] (oldest first), [info] the records given to
    [c.info.Log].  [listener] tells whether the goroutine started by
    [newHubConnection] still waits on [<-c.ctx.Done()], and [notified] lists
    the sends [ch <- err] it has dispatched. *)
Record defaultHubConnection : Type := mkHubConnection {
  ctx : option error;
  protocol : list Message;
  connected : bool;
  abortChans : list chan;
  connection : option error;
  maximumReceiveMessageSize : nat;
  lastWriteStamp : Time;
  info : list (Message * error);
  listener : bool;
  notified : list (chan * option error)
}.

Definition set_ctx (v : option error) (c : defaultHubConnection) :=
  mkHubConnection v (protocol c) (connected c) (abortChans c) (connection c)
    (maximumReceiveMessageSize c) (lastWriteStamp c) (info c) (listener c)
    (notified c).

Definition set_protocol (v : list Message) (c : defaultHubConnection) :=
  mkHubConnection (ctx c) v (connected c) (abortChans c) (connection c)
    (maximumReceiveMessageSize c) (lastWriteStamp c) (info c) (listener c)
    (notified c).

Definition set_connected (v : bool) (c : defaultHubConnection) :=
  mkHubConnection (ctx c) (protocol c) v (abortChans c) (connection c)
    (maximumReceiveMessageSize c) (lastWriteStamp c) (info c) (listener c)
    (notified c).

Definition set_abortChans (v : list chan) (c : defaultHubConnection) :=
  mkHubConnection (ctx c) (protocol c) (connected c) v (connection c)
    (maximumReceiveMessageSize c) (lastWriteStamp c) (info c) (listener c)
    (notified c).

Definition set_connection (v : option error) (c : defaultHubConnection) :=
  mkHubConnection (ctx c) (protocol c) (connected c) (abortChans c) v
    (maximumReceiveMessageSize c) (lastWriteStamp c) (info c) (listener c)
    (notified c).

Definition set_lastWriteStamp (v : Time) (c : defaultHubConnection) :=
  mkHubConnection (ctx c) (protocol c) (connected c) (abortChans c)
    (connection c) (maximumReceiveMessageSize c) v (info c) (listener c)
    (notified c).

Definition set_info (v : list (Message * error)) (c : defaultHubConnection) :=
  mkHubConnection (ctx c) (protocol c) (connected c) (abortChans c)
    (connection c) (maximumReceiveMessageSize c) (lastWriteStamp c) v
    (listener c) (notified c).

Definition set_listener (v : bool) (c : defaultHubConnection) :=
  mkHubConnection (ctx c) (protocol c) (connected c) (abortChans c)
    (connection c) (maximumReceiveMessageSize c) (lastWriteStamp c) (info c)
    v (notified c).

Definition set_notified (v : list (chan * option error))
  (c : defaultHubConnection) :=
  mkHubConnection (ctx c) (protocol c) (connected c) (abortChans c)
    (connection c) (maximumReceiveMessageSize c) (lastWriteStamp c) (info c)
    (listener c) v.

(** [newHubConnection]: [context.WithCancel(connection.Context())] gives a
    child context that has already ended when its parent has; the listener
    goroutine is started and waits. *)
Definition newHubConnection (upstream : option error)
  (maximumReceiveMessageSize : nat) : defaultHubConnection :=
  {| ctx := upstream;
     protocol := [];
     connected := false;
     abortChans := [];
     connection := upstream;
     maximumReceiveMessageSize := maximumReceiveMessageSize;
     lastWriteStamp := 0%Z;
     info := [];
     listener := true;
     notified := [] |}.

Definition Start (c : defaultHubConnection) : defaultHubConnection :=
  set_connected true c.

Definition IsConnected (c : defaultHubConnection) : bool := connected c.

Definition LastWriteStamp (c : defaultHubConnection) : Time := lastWriteStamp c.

(** [c.cancelFunc()]: ends the engine's context with [context.Canceled]
    unless it has ended already. *)
Definition Abort (c : defaultHubConnection) : defaultHubConnection :=
  match ctx c with
  | Some _ => c
  | None => set_ctx (Some context_Canceled) c
  end.

(** The transport's own context ends with [cause]; the derived context ends
    with the same cause unless it has ended already. *)
Definition upstreamCancel (cause : error) (c : defaultHubConnection)
  : defaultHubConnection :=
  match connection c with
  | Some _ => c
  | None =>
      let c := set_connection (Some cause) c in
      match ctx c with
      | Some _ => c
      | None => set_ctx (Some cause) c
      end
  end.

Definition cancel (s : CancelSource) (c : defaultHubConnection)
  : defaultHubConnection :=
  match s with
  | ByAbort => Abort c
  | ByUpstream cause => upstreamCancel cause c
  end.

Definition cancelDuring (s : option CancelSource) (c : defaultHubConnection)
  : defaultHubConnection :=
  match s with
  | Some s => cancel s c
  | None => c
  end.

(** The goroutine of [newHubConnection] ("Listen on abort"), scheduled once
    more: it stays parked while the context is alive, and runs its body once
    when the context has ended. *)
Definition abortListener (c : defaultHubConnection) : defaultHubConnection :=
  if listener c then
    match ctx c with
    | None => c
    | Some _ =>
        let c :=
          if connected c then
            let err := Wrap (connection c) "connection canceled" in
            let c :=
              set_notified
                (notified c ++ map (fun ch => (ch, err)) (abortChans c)) c in
            let c := set_abortChans [] c in
            set_connected false c
          else c in
        set_listener false c
    end
  else c.

(** ** Close *)

Definition Close (errorText : string) (allowReconnect : bool)
  (w : WriteOutcome) (c : defaultHubConnection)
  : Outcome (option error) * defaultHubConnection :=
  let closeMessage :=
    {| close_Type := 7;
       close_Error := errorText;
       close_AllowReconnect := allowReconnect |} in
  let c := set_protocol (protocol c ++ [MClose closeMessage]) c in
  match w with
  | WriteReturns err => (Returns err, c)
  | WriteHangs => (Blocks, c)
  end.

(** ** The guarded send path *)

(** [writeMessage].  [now] is the reading of [time.Now()], [w] the answer of
    [WriteMessage], [during] a cancellation arriving while the call is parked
    in its [select], [pick] the case taken when both are ready. *)
Definition writeMessage (message : Message) (now : Time) (w : WriteOutcome)
  (during : option CancelSource) (pick : Race) (c : defaultHubConnection)
  : Outcome (option error) * defaultHubConnection :=
  let c := set_lastWriteStamp now c in
  let '(r, c) :=
    if negb (IsConnected c) then
      (Returns (Wrap (ctx c) "hubConnection canceled"), c)
    else
      let c := set_protocol (protocol c ++ [message]) c in
      let c := cancelDuring during c in
      match select (isSome (ctx c)) (write_result w) pick with
      | SelDone =>
          match w with
          | WriteReturns _ =>
              (Returns (Wrap (ctx c) "hubConnection canceled"), c)
          | WriteHangs => (Blocks, c)
          end
      | SelOp err =>
          (Returns err, if isSome err then Abort c else c)
      | SelBlocked => (Blocks, c)
      end in
  match r with
  | Returns (Some err) => (r, set_info (info c ++ [(message, err)]) c)
  | _ => (r, c)
  end.

Definition SendInvocation (id target : string) (args : list any) :=
  let invocationMessage :=
    {| inv_Type := 1;
       inv_InvocationID := id;
       inv_Target := target;
       inv_Arguments := args;
       inv_StreamIds := [] |} in
  writeMessage (MInvocation invocationMessage).

Definition SendStreamInvocation (id target : string) (args : list any)
  (streamIds : list string) :=
  let invocationMessage :=
    {| inv_Type := 4;
       inv_InvocationID := id;
       inv_Target := target;
       inv_Arguments := args;
       inv_StreamIds := streamIds |} in
  writeMessage (MInvocation invocationMessage).

Definition StreamItem (id : string) (item : any) :=
  let streamItemMessage :=
    {| item_Type := 2;
       item_InvocationID := id;
       item_Item := item |} in
  writeMessage (MStreamItem streamItemMessage).

Definition Completion (id : string) (result : any) (error : string) :=
  let completionMessage :=
    {| compl_Type := 3;
       compl_InvocationID := id;
       compl_Result := result;
       compl_Error := error |} in
  writeMessage (MCompletion completionMessage).

Definition Ping :=
  let pingMessage := {| hub_Type := 6 |} in
  writeMessage (MHub pingMessage).

(** ** Receive *)

Section Receiving.

Context {D : Type}.

Record receiveResult : Type := mkReceiveResult {
  message : iface D;
  err : option error
}.

(** [protocol.ReadMessage(&buf)]: the three results and what is left in the
    buffer afterwards. *)
Record ReadMessageResult : Type := mkReadMessageResult {
  rm_message : iface D;
  rm_complete : bool;
  rm_err : option error;
  rm_rest : list byte
}.

Variable ReadMessage : list byte -> ReadMessageResult.

(** [n, readErr = c.connection.Read(data)]: at most [len(data)] bytes are
    copied to the front of [data]. *)
Definition Read (p : list byte) (data : list byte) : nat * list byte :=
  let n := Nat.min (List.length p) (List.length data) in
  (n, firstn n p ++ skipn n data).

Record LoopState : Type := mkLoopState {
  ls_result : Outcome receiveResult;
  ls_conn : defaultHubConnection;
  ls_reads : nat
}.

(** The goroutine of [Receive] with the [for] loop.  [buf] is the
    accumulation buffer, [data] the scratch slice and [n] the count of the
    last read; [reads] counts the calls of [connection.Read].  When [sched]
    is used up the transport has nothing more to say. *)
Fixpoint receiveLoop (sched : list ReadStep) (buf data : list byte) (n : nat)
  (reads : nat) (c : defaultHubConnection) : LoopState :=
  let r := ReadMessage buf in
  if negb (rm_complete r) then
    let buf := rm_rest r ++ firstn n data in
    match sched with
    | [] =>
        match select (isSome (ctx c)) (@None unit) OpFirst with
        | SelDone =>
            mkLoopState
              (Returns (mkReceiveResult INil
                          (Wrap (ctx c) "hubConnection canceled")))
              c (S reads)
        | _ => mkLoopState Blocks c (S reads)
        end
    | s :: sched =>
        let c := cancelDuring (rs_during s) c in
        let answer :=
          match rs_read s with
          | ReadReturns p readErr => Some (Read p data, readErr)
          | ReadHangs => None
          end in
        match select (isSome (ctx c)) answer (rs_pick s) with
        | SelOp (n', data', readErr) =>
            match readErr with
            | Some e =>
                mkLoopState
                  (Returns (mkReceiveResult (IInt (Z.of_nat n')) (Some e)))
                  (Abort c) (S reads)
            | None =>
                receiveLoop sched (buf ++ firstn n' data') data' n'
                  (S reads) c
            end
        | SelDone =>
            mkLoopState
              (Returns (mkReceiveResult INil
                          (Wrap (ctx c) "hubConnection canceled")))
              c (S reads)
        | SelBlocked => mkLoopState Blocks c (S reads)
        end
    end
  else
    mkLoopState (Returns (mkReceiveResult (rm_message r) (rm_err r))) c reads.

Definition loop_answer (r : Outcome receiveResult) : option receiveResult :=
  match r with
  | Returns x => Some x
  | Blocks => None
  end.

Record Received : Type := mkReceived {
  rcv_result : Outcome (iface D * option error);
  rcv_conn : defaultHubConnection;
  rcv_reads : nat
}.

(** [Receive].  [pick] is the case taken by the final [select] when the
    loop has delivered its result and the context has ended as well. *)
Definition Receive (sched : list ReadStep) (pick : Race)
  (c : defaultHubConnection) : Received :=
  match ctx c with
  | Some _ =>
      mkReceived (Returns (INil, Wrap (ctx c) "hubConnection canceled")) c 0
  | None =>
      let l :=
        receiveLoop sched []
          (repeat Byte.x00 (maximumReceiveMessageSize c)) 0 0 c in
      let c := ls_conn l in
      match select (isSome (ctx c)) (loop_answer (ls_result l)) pick with
      | SelOp recvRes =>
          mkReceived (Returns (message recvRes, err recvRes)) c (ls_reads l)
      | SelDone =>
          mkReceived (Returns (INil, Wrap (ctx c) "hubConnection canceled"))
            c (ls_reads l)
      | SelBlocked => mkReceived Blocks c (ls_reads l)
      end
  end.

(** ** Sequences of engine operations *)

Inductive SendCall : Type :=
| CallSendInvocation (id target : string) (args : list any)
| CallSendStreamInvocation (id target : string) (args : list any)
    (streamIds : list string)
| CallStreamItem (id : string) (item : any)
| CallCompletion (id : string) (result : any) (error : string)
| CallPing.

Definition guardedSend (k : SendCall) :=
  match k with
  | CallSendInvocation id target args => SendInvocation id target args
  | CallSendStreamInvocation id target args streamIds =>
      SendStreamInvocation id target args streamIds
  | CallStreamItem id item => StreamItem id item
  | CallCompletion id result error => Completion id result error
  | CallPing => Ping
  end.

(** What can happen to a connection: a call of its interface (with the
    facts decided outside of the engine), the end of the transport's
    context, or the listener goroutine being scheduled. *)
Inductive Op : Type :=
| OpStart
| OpAbort
| OpUpstreamCancel (cause : error)
| OpListener
| OpSend (k : SendCall) (now : Time) (w : WriteOutcome)
    (during : option CancelSource) (pick : Race)
| OpClose (errorText : string) (allowReconnect : bool) (w : WriteOutcome)
| OpReceive (sched : list ReadStep) (pick : Race).

Definition exec (o : Op) (c : defaultHubConnection) : defaultHubConnection :=
  match o with
  | OpStart => Start c
  | OpAbort => Abort c
  | OpUpstreamCancel cause => upstreamCancel cause c
  | OpListener => abortListener c
  | OpSend k now w during pick => snd (guardedSend k now w during pick c)
  | OpClose errorText allowReconnect w =>
      snd (Close errorText allowReconnect w c)
  | OpReceive sched pick => rcv_conn (Receive sched pick c)
  end.

(** The part of the state that belongs to the lifecycle and to the abort
    broadcast. *)
Definition lifecycle (c : defaultHubConnection)
  : bool * bool * list chan * list (chan * option error) :=
  (connected c, listener c, abortChans c, notified c).

Definition run (ops : list Op) (c : defaultHubConnection)
  : defaultHubConnection :=
  fold_left (fun c o => exec o c) ops c.

(** The values of [IsConnected] along a run, the starting one first. *)
Fixpoint history (ops : list Op) (c : defaultHubConnection) : list bool :=
  match ops with
  | [] => [IsConnected c]
  | o :: ops => IsConnected c :: history ops (exec o c)
  end.

(** The number of places where a list of flags goes from [true] to [false]. *)
Fixpoint falls (h : list bool) : nat :=
  match h with
  | true :: ((false :: _) as t) => S (falls t)
  | _ :: t => falls t
  | [] => 0
  end.

End Receiving.

End Engine.

(** ** A codec for the reception scenarios *)

(** Modelled from the spec: the Protocol Codec's [ReadMessage] is not part of
    hubconnection.go.  This one needs [need] bytes to complete one message;
    while the buffer holds fewer it reports "incomplete" and has consumed
    what the buffer held, as the loop of [Receive] expects ("ReadMessage
    read data out of the buf, so its gone there").  The decoded message is
    the message's bytes. *)
Definition thresholdCodec (need : nat) (buf : list byte)
  : @ReadMessageResult (list byte) :=
  if Nat.leb need (List.length buf) then
    mkReadMessageResult (IMsg (firstn need buf)) true None (skipn need buf)
  else
    mkReadMessageResult INil false None [].

(** Modelled from the spec: a codec that needs [need] bytes as well, but
    leaves the buffer untouched while the message is incomplete. *)
Definition peekingCodec (need : nat) (buf : list byte)
  : @ReadMessageResult (list byte) :=
  if Nat.leb need (List.length buf) then
    mkReadMessageResult (IMsg (firstn need buf)) true None (skipn need buf)
  else
    mkReadMessageResult INil false None buf.

Definition bytes (s : string) : list byte := list_byte_of_string s.

Definition ok_read (p : list byte) : ReadStep :=
  mkReadStep (ReadReturns p None) None OpFirst.

(** A read that succeeds while nothing cancels the connection. *)
Definition quietRead (s : ReadStep) : bool :=
  match rs_read s, rs_during s with
  | ReadReturns _ None, None => true
  | _, _ => false
  end.

(** A connection whose payloads are strings, and one that has been started. *)
Definition fresh (maximumReceiveMessageSize : nat)
  : @defaultHubConnection string :=
  newHubConnection None maximumReceiveMessageSize.

Definition started (maximumReceiveMessageSize : nat)
  : @defaultHubConnection string :=
  Start (fresh maximumReceiveMessageSize).


(** The transport reads of the reception scenarios. *)
Definition first32 : list byte := bytes "0123456789abcdefghijABCDEFGHIJ01".
Definition last18 : list byte := bytes "klmnopqrstKLMNOPQR".

Definition part10a : list byte := bytes "0123456789".
Definition part10b : list byte := bytes "abcdefghij".
Definition part30 : list byte := bytes "ABCDEFGHIJKLMNOPQRSTUVWXYZ0123".
Definition next20 : list byte := bytes "next-message-bytes-0".

(** A read that the transport does not answer while the connection is
    aborted. *)
Definition aborted_read : ReadStep :=
  mkReadStep ReadHangs (Some ByAbort) OpFirst.

(** Waiter channels put into [c.abortChans] by code of the package. *)
Definition registered (chans : list chan)
  (c : @defaultHubConnection string) : @defaultHubConnection string :=
  set_abortChans chans c.

Definition ping : @Message string := MHub {| hub_Type := 6 |}.

Definition failed_read (text : string) : ReadStep :=
  mkReadStep (ReadReturns [] (Some (io_error text))) None OpFirst.

(** The time a guarded send reads with [time.Now()], and the stamp that the
    sends of a sequence of operations leave behind. *)
Definition stamped {any : Type} (t : Time) (o : @Op any) : Time :=
  match o with
  | OpSend _ now _ _ _ => now
  | _ => t
  end.

Definition lastStamp {any : Type} (ops : list (@Op any)) (t : Time) : Time :=
  fold_left stamped ops t.

(** A reachable state never has the transport's context ended while the
    derived one is alive. *)
Definition derived (A : Type) (c : @defaultHubConnection A) : Prop :=
  isSome (connection c) = true -> isSome (ctx c) = true.

(** Everything in the engine but the two contexts. *)
Definition besidesContexts {any : Type} (c : @defaultHubConnection any) :=
  (protocol c, connected c, abortChans c, maximumReceiveMessageSize c,
   lastWriteStamp c, info c, listener c, notified c).

(** [Start] and the abort listener are the operations that write the
    lifecycle state. *)
Definition writesLifecycle {any : Type} (o : @Op any) : bool :=
  match o with
  | OpStart | OpListener => true
  | _ => false
  end.

(** ** Negotiation and connection identifiers (MapHub) *)

(** The alphabet of [base64.StdEncoding]. *)
Definition encodeStd : string :=
  "ABCDEFGHIJKLMNOPQRSTUVWXYZabcdefghijklmnopqrstuvwxyz0123456789+/".

(** [enc.encode[v & 0x3F]]. *)
Definition sextet (v : N) : ascii :=
  match String.get (N.to_nat (v mod 64)) encodeStd with
  | Some a => a
  | None => "="%char
  end.

(** [base64.StdEncoding.EncodeToString]: three bytes make the 24-bit value
    [a<<16 | b<<8 | c], written as four characters; a remainder of one or
    two bytes is written as two or three characters and padded with ['=']. *)
Fixpoint EncodeToString (src : list byte) : string :=
  match src with
  | [] => ""
  | [a] =>
      let val := (Byte.to_N a * 65536)%N in
      String (sextet (val / 262144)) (String (sextet (val / 4096)) "==")
  | [a; b] =>
      let val := (Byte.to_N a * 65536 + Byte.to_N b * 256)%N in
      String (sextet (val / 262144))
        (String (sextet (val / 4096)) (String (sextet (val / 64)) "="))
  | a :: b :: c :: rest =>
      let val :=
        (Byte.to_N a * 65536 + Byte.to_N b * 256 + Byte.to_N c)%N in
      String (sextet (val / 262144))
        (String (sextet (val / 4096))
           (String (sextet (val / 64))
              (String (sextet val) (EncodeToString rest))))
  end.

(** The place of a character in a string. *)
Fixpoint indexOf (a : ascii) (s : string) : option N :=
  match s with
  | EmptyString => None
  | String b s =>
      if Ascii.eqb a b then Some 0%N else option_map N.succ (indexOf a s)
  end.

Definition bytes3 (n1 n2 n3 n4 : N) : option (list byte) :=
  match Byte.of_N (n1 * 4 + n2 / 16),
        Byte.of_N ((n2 mod 16) * 16 + n3 / 4),
        Byte.of_N ((n3 mod 4) * 64 + n4) with
  | Some a, Some b, Some c => Some [a; b; c]
  | _, _, _ => None
  end.

(** The inverse of [EncodeToString], as [base64.StdEncoding.DecodeString]
    computes it on padded input. *)
Fixpoint DecodeString (s : string) : option (list byte) :=
  match s with
  | EmptyString => Some []
  | String c1 (String c2 (String c3 (String c4 rest))) =>
      match indexOf c1 encodeStd, indexOf c2 encodeStd with
      | Some n1, Some n2 =>
          if Ascii.eqb c4 "="%char then
            match rest with
            | EmptyString =>
                if Ascii.eqb c3 "="%char then
                  option_map (fun a => [a]) (Byte.of_N (n1 * 4 + n2 / 16))
                else
                  match indexOf c3 encodeStd with
                  | Some n3 => option_map (firstn 2) (bytes3 n1 n2 n3 0)
                  | None => None
                  end
            | _ => None
            end
          else
            match indexOf c3 encodeStd, indexOf c4 encodeStd,
                  DecodeString rest with
            | Some n3, Some n4, Some tail =>
                option_map (fun l => l ++ tail) (bytes3 n1 n2 n3 n4)
            | _, _, _ => None
            end
      | _, _ => None
      end
  | _ => None
  end.

(** What [rand.Read(bytes)] did: the bytes it wrote to the front of the
    slice, and its error. *)
Record RandRead : Type := mkRandRead {
  rand_written : list byte;
  rand_err : option error
}.

(** The slice [make([]byte, 16)] after [rand.Read]. *)
Definition randomBytes (r : RandRead) : list byte :=
  firstn 16 (rand_written r ++ repeat Byte.x00 16).

(** [getConnectionID]: the identifier, and what was printed. *)
Definition getConnectionID (r : RandRead) : string * list error :=
  (EncodeToString (randomBytes r),
   match rand_err r with
   | Some e => [e]
   | None => []
   end).

Record availableTransport : Type := mkAvailableTransport {
  Transport : string;
  TransferFormats : list string
}.

Record negotiateResponse : Type := mkNegotiateResponse {
  ConnectionID : string;
  AvailableTransports : list availableTransport
}.

(** An [http.ResponseWriter], by what the handler gives it: the status
    codes of [WriteHeader] and the values given to the JSON encoder. *)
Record ResponseWriter : Type := mkResponseWriter {
  rw_status : list nat;
  rw_encoded : list negotiateResponse
}.

(** [negotiateHandler].  [encodeErr] is the result of [Encode]; the second
    component lists what was printed. *)
Definition negotiateHandler (w : ResponseWriter) (Method : string)
  (r : RandRead) (encodeErr : option error) : ResponseWriter * list error :=
  if negb (String.eqb Method "POST") then
    (mkResponseWriter (rw_status w ++ [400]) (rw_encoded w), [])
  else
    let '(connectionID, printed) := getConnectionID r in
    let response :=
      {| ConnectionID := connectionID;
         AvailableTransports :=
           [ {| Transport := "WebSockets";
                TransferFormats := ["Text"; "Binary"] |} ] |} in
    (mkResponseWriter (rw_status w) (rw_encoded w ++ [response]),
     printed ++ match encodeErr with
                | Some e => [e]
                | None => []
                end).

(** The identifier that the websocket handler of [MapHub] gives to the
    connection it runs: the [id] of the query, or a new one. *)
Definition websocketConnectionID (queryID : string) (r : RandRead)
  : string :=
  if Nat.eqb (String.length queryID) 0 then fst (getConnectionID r)
  else queryID.

Definition isStart {any : Type} (o : @Op any) : bool :=
  match o with
  | OpStart => true
  | _ => false
  end.

(** * Properties *)

Section EngineFacts.

Context {any : Type}.

Implicit Types c : @defaultHubConnection any.
Implicit Types message : @Message any.
Implicit Types k : @SendCall any.

(** ** Frame lemmas: who touches the lifecycle state *)

Lemma Abort_lifecycle c : lifecycle (Abort c) = lifecycle c.
Proof. unfold Abort. destruct (ctx c); reflexivity. Qed.

Lemma upstreamCancel_lifecycle cause c :
  lifecycle (upstreamCancel cause c) = lifecycle c.
Proof.
  unfold upstreamCancel. destruct (connection c); [reflexivity|].
  cbn. destruct (ctx c); reflexivity.
Qed.

Lemma cancelDuring_lifecycle during c :
  lifecycle (cancelDuring during c) = lifecycle c.
Proof.
  destruct during as [[|cause]|]; cbn;
    auto using Abort_lifecycle, upstreamCancel_lifecycle.
Qed.

Lemma Abort_ends c : isSome (ctx (Abort c)) = true.
Proof. unfold Abort. destruct (ctx c) eqn:E; cbn; [rewrite E|]; reflexivity. Qed.

Lemma Abort_ended c e : ctx c = Some e -> Abort c = c.
Proof. unfold Abort. intros ->. reflexivity. Qed.

Lemma ctx_sticky_Abort c e : ctx c = Some e -> ctx (Abort c) = Some e.
Proof. intros H. rewrite (Abort_ended c e H). exact H. Qed.

Lemma ctx_sticky_upstream cause c e :
  ctx c = Some e -> ctx (upstreamCancel cause c) = Some e.
Proof.
  intros H. unfold upstreamCancel. destruct (connection c); [exact H|].
  cbn. rewrite H. exact H.
Qed.

Lemma ctx_sticky_cancelDuring during c e :
  ctx c = Some e -> ctx (cancelDuring during c) = Some e.
Proof.
  destruct during as [[|cause]|]; cbn;
    auto using ctx_sticky_Abort, ctx_sticky_upstream.
Qed.

Lemma set_info_lifecycle v c : lifecycle (set_info v c) = lifecycle c.
Proof. reflexivity. Qed.

Lemma writeMessage_lifecycle message now w during pick c :
  lifecycle (snd (writeMessage message now w during pick c)) = lifecycle c.
Proof.
  unfold writeMessage, IsConnected. cbn.
  destruct (connected c) eqn:Hc; cbn.
  - set (c1 := set_protocol _ _).
    assert (H1 : lifecycle (cancelDuring during c1) = lifecycle c)
      by (rewrite cancelDuring_lifecycle; unfold lifecycle; cbn;
          rewrite Hc; reflexivity).
    destruct (select _ _ _) as [|[e|]|]; destruct w as [[e'|]|]; cbn;
      rewrite ?set_info_lifecycle, ?Abort_lifecycle;
      try exact H1;
      match goal with
      | |- context [Wrap ?a ?b] =>
          destruct (Wrap a b); cbn; rewrite ?set_info_lifecycle; exact H1
      end.
  - destruct (Wrap _ _); unfold lifecycle; cbn; rewrite Hc; reflexivity.
Qed.

Lemma guardedSend_lifecycle k now w during pick c :
  lifecycle (snd (guardedSend k now w during pick c)) = lifecycle c.
Proof. destruct k; apply writeMessage_lifecycle. Qed.

Lemma Close_lifecycle errorText allowReconnect w c :
  lifecycle (snd (Close errorText allowReconnect w c)) = lifecycle c.
Proof. destruct w; reflexivity. Qed.

(** The rejected branch of the guarded send path, whatever the cause. *)
Lemma writeMessage_not_connected message now w during pick c :
  IsConnected c = false ->
  fst (writeMessage message now w during pick c)
    = Returns (Wrap (ctx c) "hubConnection canceled")
  /\ protocol (snd (writeMessage message now w during pick c)) = protocol c.
Proof.
  unfold writeMessage, IsConnected. cbn. intros ->. cbn.
  destruct (ctx c); cbn; auto.
Qed.

(** A rejected send on a connection whose context has ended is a failure
    that wraps the cause, and the codec is not called. *)
Lemma writeMessage_rejected_after_cancel message now w during pick c e :
  IsConnected c = false ->
  ctx c = Some e ->
  fst (writeMessage message now w during pick c)
    = Returns (Some (Wrapped "hubConnection canceled" e))
  /\ protocol (snd (writeMessage message now w during pick c)) = protocol c.
Proof.
  intros Hc He.
  destruct (writeMessage_not_connected message now w during pick c Hc)
    as [H1 H2].
  rewrite H1, He. auto.
Qed.

(** A failed write whose answer is the case taken by the [select] ends the
    context before the failure is returned. *)
Lemma writeMessage_failure_aborts message now during pick c e :
  IsConnected c = true ->
  (isSome (ctx (cancelDuring during c)) = true -> pick = OpFirst) ->
  let r := writeMessage message now (WriteReturns (Some e)) during pick c in
  fst r = Returns (Some e) /\ isSome (ctx (snd r)) = true.
Proof.
  unfold writeMessage, IsConnected. cbn. intros Hc Hp. rewrite Hc. cbn.
  set (c1 := set_protocol _ _).
  assert (E : ctx (cancelDuring during c1) = ctx (cancelDuring during c)).
  { destruct during as [[|cause]|]; cbn; try reflexivity.
    - unfold Abort. cbn. destruct (ctx c); reflexivity.
    - unfold upstreamCancel. cbn. destruct (connection c); cbn;
        [reflexivity|]. destruct (ctx c); reflexivity. }
  rewrite E.
  destruct (isSome (ctx (cancelDuring during c))) eqn:Hd; cbn.
  - rewrite (Hp eq_refl). cbn. split; [reflexivity|apply Abort_ends].
  - split; [reflexivity|apply Abort_ends].
Qed.

Ltac split_matches :=
  repeat match goal with
         | |- context [match ?x with _ => _ end] => destruct x eqn:?; cbn
         end.

Lemma ctx_cancelDuring_frame during c c' :
  ctx c = ctx c' -> connection c = connection c' ->
  ctx (cancelDuring during c) = ctx (cancelDuring during c').
Proof.
  intros H1 H2. destruct during as [[|cause]|]; cbn;
    unfold Abort, upstreamCancel; cbn; rewrite ?H1, ?H2;
    split_matches; congruence.
Qed.

Lemma cancelDuring_stamp during c :
  lastWriteStamp (cancelDuring during c) = lastWriteStamp c.
Proof.
  destruct during as [[|cause]|]; cbn; unfold Abort, upstreamCancel;
    split_matches; reflexivity.
Qed.

Lemma writeMessage_stamp message now w during pick c :
  lastWriteStamp (snd (writeMessage message now w during pick c)) = now.
Proof.
  unfold writeMessage, IsConnected. cbn.
  destruct (connected c); cbn.
  - set (c1 := set_protocol _ _).
    assert (H1 : lastWriteStamp (cancelDuring during c1) = now)
      by (rewrite cancelDuring_stamp; reflexivity).
    assert (H2 : lastWriteStamp (Abort (cancelDuring during c1)) = now)
      by (unfold Abort; destruct (ctx _); [exact H1|cbn; exact H1]).
    destruct (select _ _ _) as [|[e|]|]; destruct w as [[e'|]|]; cbn;
      try exact H1; try exact H2;
      match goal with
      | |- context [Wrap ?a ?b] => destruct (Wrap a b); cbn; exact H1
      end.
  - destruct (Wrap _ _); reflexivity.
Qed.

(** ** The guarded send path *)

(** C1 (the code departs from the claim at this input): a guarded send on a
    connection that was created and never started finds [connected] false
    while the context is alive, so [eris.Wrap] is given a nil cause: the
    call returns nil, not a Not-Connected failure.  The codec's
    [WriteMessage] is not invoked. *)
Theorem guardedSend_before_Start_returns_nil
  k now w during pick maximumReceiveMessageSize :
  let c := newHubConnection None maximumReceiveMessageSize in
  IsConnected c = false
  /\ fst (guardedSend k now w during pick c) = Returns None
  /\ protocol (snd (guardedSend k now w during pick c)) = [].
Proof. destruct k; repeat split. Qed.

(** C4: when the context has ended and the [select] of the guarded-write
    routine takes the [Done] case because the write is still in flight, the
    routine has invoked [WriteMessage], does not return while the write has
    not finished, and once it has finished returns the cancellation failure
    whatever the write's own result was. *)
Theorem writeMessage_waits_for_write_in_flight
  message now w during c e :
  IsConnected c = true ->
  ctx (cancelDuring during c) = Some e ->
  let r := writeMessage message now w during DoneFirst c in
  protocol (snd r) = protocol c ++ [message]
  /\ fst r = match w with
            | WriteHangs => Blocks
            | WriteReturns _ =>
                Returns (Some (Wrapped "hubConnection canceled" e))
            end.
Proof.
  unfold writeMessage, IsConnected. cbn. intros Hc He. rewrite Hc. cbn.
  set (c1 := set_protocol _ _).
  assert (E : ctx (cancelDuring during c1) = Some e)
    by (rewrite <- He; apply ctx_cancelDuring_frame; reflexivity).
  assert (P : protocol (cancelDuring during c1) = protocol c ++ [message]).
  { destruct during as [[|cause]|]; cbn; unfold Abort, upstreamCancel;
      split_matches; reflexivity. }
  rewrite E. cbn. destruct w as [werr|]; cbn; auto.
Qed.

(** C7: every public send operation hands to the codec a message with its
    protocol tag and exactly the values it was called with; the guarded
    senders do so when the connection is connected and hand over nothing
    otherwise, [Close] does so always. *)
Theorem senders_build_their_messages
  c now w during pick (id target : string) (args : list any)
  (streamIds : list string) (item result : any) (error errorText : string)
  (allowReconnect : bool) :
  let sent (m : Message) := protocol c ++ (if IsConnected c then [m] else []) in
  protocol (snd (Ping now w during pick c))
    = sent (MHub {| hub_Type := 6 |})
  /\ protocol (snd (SendInvocation id target args now w during pick c))
    = sent (MInvocation {| inv_Type := 1; inv_InvocationID := id;
                           inv_Target := target; inv_Arguments := args;
                           inv_StreamIds := [] |})
  /\ protocol
       (snd (SendStreamInvocation id target args streamIds now w during pick c))
    = sent (MInvocation {| inv_Type := 4; inv_InvocationID := id;
                           inv_Target := target; inv_Arguments := args;
                           inv_StreamIds := streamIds |})
  /\ protocol (snd (StreamItem id item now w during pick c))
    = sent (MStreamItem {| item_Type := 2; item_InvocationID := id;
                           item_Item := item |})
  /\ protocol (snd (Completion id result error now w during pick c))
    = sent (MCompletion {| compl_Type := 3; compl_InvocationID := id;
                           compl_Result := result; compl_Error := error |})
  /\ protocol (snd (Close errorText allowReconnect w c))
    = protocol c ++ [MClose {| close_Type := 7; close_Error := errorText;
                               close_AllowReconnect := allowReconnect |}].
Proof.
  assert (W : forall m,
    protocol (snd (writeMessage m now w during pick c))
      = protocol c ++ (if IsConnected c then [m] else [])).
  { intros m. unfold writeMessage, IsConnected. cbn.
    destruct (connected c); cbn.
    - set (c1 := set_protocol _ _).
      assert (P : protocol (cancelDuring during c1) = protocol c ++ [m]).
      { destruct during as [[|cause]|]; cbn; unfold Abort, upstreamCancel;
          split_matches; reflexivity. }
      assert (P' : protocol (Abort (cancelDuring during c1))
                   = protocol c ++ [m])
        by (unfold Abort; destruct (ctx _); [exact P|cbn; exact P]).
      destruct (select _ _ _) as [|[e|]|]; destruct w as [[e'|]|]; cbn;
        try exact P; try exact P';
        match goal with
        | |- context [Wrap ?a ?b] => destruct (Wrap a b); cbn; exact P
        end.
    - rewrite app_nil_r. destruct (Wrap _ _); reflexivity. }
  cbn zeta. unfold Ping, SendInvocation, SendStreamInvocation, StreamItem,
    Completion. rewrite !W.
  repeat split. destruct w; reflexivity.
Qed.

(** C8: in every state [Close] hands its message to the codec's
    [WriteMessage], returns what the writer returns, and changes nothing
    else: not [lastWriteStamp], and not the context when the write fails. *)
Theorem Close_bypasses_guarded_path errorText allowReconnect w c :
  let r := Close errorText allowReconnect w c in
  protocol (snd r)
    = protocol c ++ [MClose {| close_Type := 7; close_Error := errorText;
                               close_AllowReconnect := allowReconnect |}]
  /\ fst r = match w with
            | WriteReturns err => Returns err
            | WriteHangs => Blocks
            end
  /\ LastWriteStamp (snd r) = LastWriteStamp c
  /\ ctx (snd r) = ctx c
  /\ IsConnected (snd r) = IsConnected c
  /\ snd r = set_protocol (protocol (snd r)) c.
Proof. destruct w; repeat split. Qed.

(** C10: every guarded send stores the current time in [lastWriteStamp];
    a call rejected because the connection is not connected has stored it as
    well, although it returns the wrapped context cause at once and the
    codec is not called. *)
Theorem guardedSend_stamps_before_check k now w during pick c :
  LastWriteStamp (snd (guardedSend k now w during pick c)) = now
  /\ (IsConnected c = false ->
      fst (guardedSend k now w during pick c)
        = Returns (Wrap (ctx c) "hubConnection canceled")
      /\ protocol (snd (guardedSend k now w during pick c)) = protocol c).
Proof.
  split.
  - destruct k; apply writeMessage_stamp.
  - intros Hc. destruct k; apply writeMessage_not_connected; exact Hc.
Qed.

End EngineFacts.

Section ReceiveFacts.

Context {any D : Type}.
Variable ReadMessage : list byte -> @ReadMessageResult D.

Implicit Types c : @defaultHubConnection any.
Implicit Types sched pre post : list ReadStep.

Local Abbreviation loop := (receiveLoop ReadMessage).

Lemma select_alive {A : Type} (a : A) pick : select false (Some a) pick = SelOp a.
Proof. reflexivity. Qed.

Lemma quietRead_inv s :
  quietRead s = true ->
  exists p, rs_read s = ReadReturns p None /\ rs_during s = None.
Proof.
  unfold quietRead. destruct (rs_read s) as [p [e|]|]; try discriminate.
  destruct (rs_during s); try discriminate. eauto.
Qed.

(** Reads that succeed on a live connection leave the engine as it is: the
    loop either completes a message on the way, or goes on with what is left
    of the schedule. *)
Lemma receiveLoop_quiet_prefix pre : forall post buf data n reads c,
  ctx c = None ->
  forallb quietRead pre = true ->
  (exists x k, k <= reads + List.length pre
     /\ loop (pre ++ post) buf data n reads c = mkLoopState (Returns x) c k)
  \/ (exists buf' data' n',
        loop (pre ++ post) buf data n reads c
          = loop post buf' data' n' (reads + List.length pre) c).
Proof.
  induction pre as [|s pre IH]; intros post buf data n reads c Hc Hq.
  - right. exists buf, data, n. cbn. rewrite Nat.add_0_r. reflexivity.
  - cbn in Hq. apply andb_prop in Hq. destruct Hq as [Hs Hq].
    destruct (quietRead_inv s Hs) as [p [Hr Hd]].
    cbn [app receiveLoop].
    destruct (rm_complete (ReadMessage buf)); cbn [negb].
    + left. eexists _, reads. split; [lia|reflexivity].
    + rewrite Hd, Hr. cbn [cancelDuring]. rewrite Hc. cbn [isSome].
      rewrite select_alive. destruct (Read p data) as [n' data'].
      destruct (IH post (rm_rest (ReadMessage buf) ++ firstn n data
                           ++ firstn n' data') data' n' (S reads) c Hc Hq)
        as [[x [k [Hk E]]]|[buf' [data'' [n'' E]]]].
      * left. exists x, k. split; [cbn; lia|].
        rewrite <- app_assoc. exact E.
      * right. exists buf', data'', n''. rewrite <- app_assoc.
        rewrite E. f_equal. cbn. lia.
Qed.

Lemma receiveLoop_lifecycle sched : forall buf data n reads c,
  lifecycle (ls_conn (loop sched buf data n reads c)) = lifecycle c.
Proof.
  induction sched as [|s sched IH]; intros buf data n reads c;
    cbn [receiveLoop].
  - destruct (rm_complete _); cbn; [reflexivity|].
    destruct (isSome (ctx c)); reflexivity.
  - destruct (rm_complete _); cbn [negb]; [reflexivity|].
    destruct (select _ _ _) as [|[[n' data'] [e|]]|]; cbn [ls_conn];
      rewrite ?IH, ?Abort_lifecycle; apply cancelDuring_lifecycle.
Qed.

Lemma Receive_lifecycle sched pick c :
  lifecycle (rcv_conn (Receive ReadMessage sched pick c)) = lifecycle c.
Proof.
  unfold Receive. destruct (ctx c); [reflexivity|].
  destruct (select _ _ _); cbn [rcv_conn]; apply receiveLoop_lifecycle.
Qed.

(** What [Receive] does when the first read that does not succeed fails:
    the connection is aborted, and the caller gets the read failure or the
    cancellation, as the final [select] decides (both of its cases are ready
    by then, the context having been ended first). *)
Lemma Receive_read_failure pre s post p e pick c :
  ctx c = None ->
  forallb quietRead pre = true ->
  rs_read s = ReadReturns p (Some e) ->
  rs_during s = None ->
  let r := Receive ReadMessage (pre ++ s :: post) pick c in
  (rcv_reads r <= List.length pre /\ rcv_conn r = c
   /\ exists x, rcv_result r = Returns x)
  \/ (rcv_reads r = S (List.length pre)
      /\ ctx (rcv_conn r) = Some context_Canceled
      /\ exists n,
           rcv_result r
           = Returns
               match pick with
               | OpFirst => (IInt n, Some e)
               | DoneFirst =>
                   (INil,
                    Some (Wrapped "hubConnection canceled" context_Canceled))
               end).
Proof.
  intros Hc Hq Hr Hd. unfold Receive. rewrite Hc.
  destruct (receiveLoop_quiet_prefix pre (s :: post) []
              (repeat Byte.x00 (maximumReceiveMessageSize c)) 0 0 c Hc Hq)
    as [[x [k [Hk E]]]|[buf' [data' [n' E]]]]; rewrite E; clear E.
  - left. cbn. rewrite Hc. cbn. split; [lia|]. split; [reflexivity|eauto].
  - cbn [receiveLoop]. destruct (rm_complete (ReadMessage buf')); cbn [negb].
    + left. cbn. rewrite Hc. cbn. split; [lia|]. split; [reflexivity|eauto].
    + right. rewrite Hd, Hr. cbn [cancelDuring]. rewrite Hc. cbn [isSome].
      rewrite select_alive. destruct (Read p data') as [m data''].
      cbn [ls_conn ls_result ls_reads loop_answer].
      unfold Abort. rewrite Hc. cbn.
      destruct pick; cbn; (split; [reflexivity|]); (split; [reflexivity|]);
        exists (Z.of_nat m); reflexivity.
Qed.

(** Reads that succeed on a live connection: either the codec completes a
    message on the way, and what follows in the schedule does not matter;
    or the reads alone leave the loop waiting in one more read, and with a
    longer schedule the loop goes on from there, the codec having found the
    buffer incomplete. *)
Lemma receiveLoop_quiet_split pre : forall buf data n reads c,
  ctx c = None ->
  forallb quietRead pre = true ->
  (exists buf' k,
     rm_complete (ReadMessage buf') = true
     /\ forall post,
          loop (pre ++ post) buf data n reads c
          = mkLoopState
              (Returns (mkReceiveResult (rm_message (ReadMessage buf'))
                          (rm_err (ReadMessage buf')))) c k)
  \/ (exists buf' data' n',
        rm_complete (ReadMessage buf') = false
        /\ loop pre buf data n reads c
           = mkLoopState Blocks c (S (reads + List.length pre))
        /\ forall post,
             loop (pre ++ post) buf data n reads c
             = loop post buf' data' n' (reads + List.length pre) c).
Proof.
  induction pre as [|s pre IH]; intros buf data n reads c Hc Hq.
  - destruct (rm_complete (ReadMessage buf)) eqn:E.
    + left. exists buf, reads. split; [exact E|]. intros post. cbn [app].
      destruct post; cbn [receiveLoop]; rewrite E; reflexivity.
    + right. exists buf, data, n. split; [exact E|]. split.
      * cbn [receiveLoop]. rewrite E, Hc. cbn. rewrite Nat.add_0_r.
        reflexivity.
      * intros post. cbn. rewrite Nat.add_0_r. reflexivity.
  - cbn in Hq. apply andb_prop in Hq. destruct Hq as [Hs Hq].
    destruct (quietRead_inv s Hs) as [p [Hr Hd]].
    destruct (rm_complete (ReadMessage buf)) eqn:E.
    + left. exists buf, reads. split; [exact E|]. intros post.
      cbn [app receiveLoop]. rewrite E. reflexivity.
    + destruct (Read p data) as [n' data'] eqn:ER.
      destruct (IH ((rm_rest (ReadMessage buf) ++ firstn n data)
                      ++ firstn n' data') data' n' (S reads) c Hc Hq)
        as [[buf' [k [H0 H]]]|[buf' [data'' [n'' [H1 [H2 H3]]]]]].
      * left. exists buf', k. split; [exact H0|]. intros post.
        cbn [app receiveLoop].
        rewrite E, Hd, Hr. cbn [negb cancelDuring]. rewrite Hc. cbn [isSome].
        rewrite select_alive, ER. apply H.
      * right. exists buf', data'', n''. split; [exact H1|].
        assert (L : S reads + List.length pre
                    = reads + List.length (s :: pre)) by (cbn; lia).
        split.
        -- cbn [receiveLoop]. rewrite E, Hd, Hr. cbn [negb cancelDuring].
           rewrite Hc. cbn [isSome]. rewrite select_alive, ER, H2, L.
           reflexivity.
        -- intros post. cbn [app receiveLoop].
           rewrite E, Hd, Hr. cbn [negb cancelDuring]. rewrite Hc.
           cbn [isSome]. rewrite select_alive, ER, H3, L. reflexivity.
Qed.

(** C6: a call of [Receive] on a connection whose context has ended returns
    the wrapped cause at once, without a transport read.  And when, after
    reads that left the codec unsatisfied (with those reads alone [Receive]
    waits in the next one), the context ends while the transport does not
    answer the next read, [Receive] returns the wrapped cause without that
    read completing.  The only other case is that the codec had completed a
    message with the earlier reads: then [Receive] has returned the codec's
    result before that read was started.  In particular, with a codec that
    never completes, [Receive] returns the wrapped cause. *)
Theorem Receive_cancellation :
  (forall sched pick c e,
     ctx c = Some e ->
     Receive ReadMessage sched pick c
       = mkReceived
           (Returns (INil, Some (Wrapped "hubConnection canceled" e))) c 0)
  /\ (forall pre s post pick c e,
        ctx c = None ->
        forallb quietRead pre = true ->
        rs_read s = ReadHangs ->
        ctx (cancelDuring (rs_during s) c) = Some e ->
        match rcv_result (Receive ReadMessage pre pick c) with
        | Blocks =>
            Receive ReadMessage (pre ++ s :: post) pick c
            = mkReceived
                (Returns (INil, Some (Wrapped "hubConnection canceled" e)))
                (cancelDuring (rs_during s) c) (S (List.length pre))
        | Returns x =>
            Receive ReadMessage (pre ++ s :: post) pick c
            = Receive ReadMessage pre pick c
            /\ exists buf,
                 rm_complete (ReadMessage buf) = true
                 /\ x = (rm_message (ReadMessage buf),
                         rm_err (ReadMessage buf))
        end)
  /\ (forall pre s post pick c e,
        (forall buf, rm_complete (ReadMessage buf) = false) ->
        ctx c = None ->
        forallb quietRead pre = true ->
        rs_read s = ReadHangs ->
        ctx (cancelDuring (rs_during s) c) = Some e ->
        Receive ReadMessage (pre ++ s :: post) pick c
        = mkReceived
            (Returns (INil, Some (Wrapped "hubConnection canceled" e)))
            (cancelDuring (rs_during s) c) (S (List.length pre))).
Proof.
  assert (G : forall pre s post pick c e,
    ctx c = None ->
    forallb quietRead pre = true ->
    rs_read s = ReadHangs ->
    ctx (cancelDuring (rs_during s) c) = Some e ->
    (exists buf,
       rm_complete (ReadMessage buf) = true
       /\ rcv_result (Receive ReadMessage pre pick c)
          = Returns (rm_message (ReadMessage buf), rm_err (ReadMessage buf))
       /\ Receive ReadMessage (pre ++ s :: post) pick c
          = Receive ReadMessage pre pick c)
    \/ (rcv_result (Receive ReadMessage pre pick c) = Blocks
        /\ Receive ReadMessage (pre ++ s :: post) pick c
           = mkReceived
               (Returns (INil, Some (Wrapped "hubConnection canceled" e)))
               (cancelDuring (rs_during s) c) (S (List.length pre)))).
  { intros pre s post pick c e Hc Hq Hr He. unfold Receive. rewrite Hc.
    destruct (receiveLoop_quiet_split pre []
                (repeat Byte.x00 (maximumReceiveMessageSize c)) 0 0 c Hc Hq)
      as [[buf' [k [H0 H]]]|[buf' [data' [n' [H1 [H2 H3]]]]]].
    - left. exists buf'. split; [exact H0|].
      rewrite (H (s :: post)). generalize (H []). rewrite app_nil_r.
      intros ->. cbn. rewrite Hc. cbn. split; reflexivity.
    - right. rewrite H2, (H3 (s :: post)).
      cbn [ls_conn ls_result loop_answer].
      rewrite Hc. cbn [isSome select rcv_result].
      split; [reflexivity|].
      cbn [receiveLoop]. rewrite H1, Hr, He. cbn. rewrite He. cbn.
      destruct pick; reflexivity. }
  split; [|split].
  - intros sched pick c e He. unfold Receive. rewrite He. reflexivity.
  - intros pre s post pick c e Hc Hq Hr He.
    destruct (G pre s post pick c e Hc Hq Hr He)
      as [[buf [H0 [H1 H2]]]|[H1 H2]]; rewrite H1.
    + split; [exact H2|]. exists buf. auto.
    + exact H2.
  - intros pre s post pick c e Hn Hc Hq Hr He.
    destruct (G pre s post pick c e Hc Hq Hr He)
      as [[buf [H0 _]]|[_ H2]]; [|exact H2].
    rewrite Hn in H0. discriminate.
Qed.

End ReceiveFacts.

Section LifecycleFacts.

Context {any D : Type}.
Variable ReadMessage : list byte -> @ReadMessageResult D.

Implicit Types c : @defaultHubConnection any.
Implicit Types o : @Op any.

Local Abbreviation exec' := (exec ReadMessage).
Local Abbreviation run' := (run ReadMessage).
Local Abbreviation history' := (history ReadMessage).

(** Only [Start] and the abort listener touch the lifecycle state. *)
Lemma exec_lifecycle o c :
  o <> OpStart -> o <> OpListener -> lifecycle (exec' o c) = lifecycle c.
Proof.
  intros H1 H2. destruct o; cbn [exec]; try congruence.
  - apply Abort_lifecycle.
  - apply upstreamCancel_lifecycle.
  - apply guardedSend_lifecycle.
  - apply Close_lifecycle.
  - apply Receive_lifecycle.
Qed.

Lemma lifecycle_connected c c' :
  lifecycle c' = lifecycle c -> connected c' = connected c.
Proof. unfold lifecycle. congruence. Qed.

Lemma lifecycle_listener c c' :
  lifecycle c' = lifecycle c -> listener c' = listener c.
Proof. unfold lifecycle. congruence. Qed.

Lemma lifecycle_waiters c c' :
  lifecycle c' = lifecycle c ->
  notified c' = notified c /\ abortChans c' = abortChans c.
Proof. unfold lifecycle. intros H. split; congruence. Qed.

Lemma abortListener_gone c : listener c = false -> abortListener c = c.
Proof. unfold abortListener. intros ->. reflexivity. Qed.

Lemma abortListener_parked c : ctx c = None -> abortListener c = c.
Proof. unfold abortListener. intros ->. destruct (listener c); reflexivity. Qed.

(** The listener never comes back. *)
Lemma exec_listener_gone o c :
  listener c = false -> listener (exec' o c) = false.
Proof.
  intros H.
  destruct o; try (rewrite (lifecycle_listener c);
                   [exact H|apply exec_lifecycle; congruence]).
  - exact H.
  - cbn. rewrite abortListener_gone; assumption.
Qed.

Lemma history_head ops c :
  history' ops c = IsConnected c :: tl (history' ops c).
Proof. destruct ops; reflexivity. Qed.

Lemma falls_step b b' t :
  falls (b :: b' :: t) = (if b && negb b' then 1 else 0) + falls (b' :: t).
Proof. destruct b, b'; reflexivity. Qed.

(** A fall of the flag uses up the listener. *)
Lemma exec_fall o c :
  IsConnected c = true -> IsConnected (exec' o c) = false ->
  o = OpListener /\ isSome (ctx c) = true /\ listener c = true
  /\ listener (exec' o c) = false.
Proof.
  unfold IsConnected. intros Hc Hf.
  destruct o;
    try (rewrite (lifecycle_connected c) in Hf;
         [congruence|apply exec_lifecycle; congruence]).
  - cbn in Hf. discriminate.
  - cbn in *. unfold abortListener in *.
    destruct (listener c); [|congruence].
    destruct (ctx c); [|congruence].
    rewrite Hc. cbn. auto.
Qed.

Lemma exec_rise o c :
  IsConnected c = false -> IsConnected (exec' o c) = true -> o = OpStart.
Proof.
  unfold IsConnected. intros Hc Hr.
  destruct o;
    try (rewrite (lifecycle_connected c) in Hr;
         [congruence|apply exec_lifecycle; congruence]).
  - reflexivity.
  - cbn in Hr. unfold abortListener in Hr.
    destruct (listener c); [|congruence].
    destruct (ctx c); [|congruence].
    rewrite Hc in Hr. cbn in Hr. congruence.
Qed.

Lemma falls_bounded_by_listener ops : forall c,
  falls (history' ops c) <= if listener c then 1 else 0.
Proof.
  induction ops as [|o ops IH]; intros c.
  - cbn. destruct (IsConnected c); cbn; lia.
  - cbn [history]. rewrite history_head, falls_step, <- history_head.
    specialize (IH (exec' o c)).
    assert (Hmono : listener c = false -> listener (exec' o c) = false)
      by apply exec_listener_gone.
    destruct (IsConnected c) eqn:Hc; cbn [andb].
    + destruct (IsConnected (exec' o c)) eqn:Hf; cbn [negb].
      * destruct (listener c); [|rewrite Hmono in IH by reflexivity];
          destruct (listener (exec' o c)); lia.
      * destruct (exec_fall o c Hc Hf) as [_ [_ [Hl Hl']]].
        rewrite Hl' in IH. rewrite Hl. lia.
    + destruct (listener c); [|rewrite Hmono in IH by reflexivity];
        destruct (listener (exec' o c)); lia.
Qed.

Lemma run_listener_gone ops : forall c,
  listener c = false -> lifecycle (run' ops c) = lifecycle c
                        \/ notified (run' ops c) = notified c
                           /\ abortChans (run' ops c) = abortChans c
                           /\ listener (run' ops c) = false.
Proof.
  induction ops as [|o ops IH]; intros c Hl; [left; reflexivity|].
  right. cbn [run fold_left].
  assert (Hl' := exec_listener_gone o c Hl).
  assert (E : notified (exec' o c) = notified c
              /\ abortChans (exec' o c) = abortChans c).
  { destruct o; try (apply lifecycle_waiters, exec_lifecycle; congruence).
    - split; reflexivity.
    - cbn. rewrite abortListener_gone by exact Hl. split; reflexivity. }
  destruct E as [E1 E2].
  destruct (IH (exec' o c) Hl') as [H|[H1 [H2 H3]]].
  - apply lifecycle_waiters in H as Hw. destruct Hw as [H1 H2].
    apply lifecycle_listener in H. unfold run in *.
    rewrite H1, H2, H. auto.
  - unfold run in *. rewrite H1, H2, H3. auto.
Qed.

(** C3 (as amended): [Start] sets the flag whatever the state, also after
    the connection has been terminated; the flag rises by [Start] only and
    falls only when the abort listener runs after the context has ended;
    the listener runs once, so along every sequence of operations on a new
    connection the flag falls at most once. *)
Theorem connected_lifecycle :
  (forall c, IsConnected (Start c) = true)
  /\ (forall o c,
        IsConnected c = false -> IsConnected (exec' o c) = true ->
        o = OpStart)
  /\ (forall o c,
        IsConnected c = true -> IsConnected (exec' o c) = false ->
        o = OpListener /\ isSome (ctx c) = true /\ listener c = true
        /\ listener (exec' o c) = false)
  /\ (forall (ops : list (@Op any)) upstream maximumReceiveMessageSize,
        falls (history' ops (newHubConnection upstream
                               maximumReceiveMessageSize)) <= 1).
Proof.
  split; [reflexivity|]. split; [exact exec_rise|].
  split; [exact exec_fall|].
  intros ops upstream m.
  exact (falls_bounded_by_listener ops (newHubConnection upstream m)).
Qed.

(** C9 (as amended): when the abort listener observes the end of the
    context while the connection is connected, one send is dispatched to
    every registered channel, in order, all with the same value, which is
    the wrapped cause when the transport's context has ended; the list is
    cleared.  When the connection is not connected at that moment nothing
    is sent and the list is kept.  Either way the listener is gone
    afterwards, and no later operation sends to a waiter or changes the
    list; while the context is alive the listener does nothing. *)
Theorem abortListener_drains_once :
  (forall c, ctx c = None -> abortListener c = c)
  /\ (forall c e,
     listener c = true -> ctx c = Some e -> IsConnected c = true ->
     let c' := abortListener c in
     exists err,
       notified c' = notified c ++ map (fun ch => (ch, err)) (abortChans c)
       /\ (forall cause,
             connection c = Some cause ->
             err = Some (Wrapped "connection canceled" cause))
       /\ abortChans c' = [] /\ IsConnected c' = false
       /\ listener c' = false)
  /\ (forall c e,
        listener c = true -> ctx c = Some e -> IsConnected c = false ->
        let c' := abortListener c in
        notified c' = notified c /\ abortChans c' = abortChans c
        /\ listener c' = false)
  /\ (forall ops c,
        listener c = false ->
        notified (run' ops c) = notified c
        /\ abortChans (run' ops c) = abortChans c
        /\ listener (run' ops c) = false).
Proof.
  split; [exact abortListener_parked|]. split; [|split].
  - unfold abortListener, IsConnected. intros c e -> -> ->. cbn.
    eexists. split; [reflexivity|]. split; [|auto].
    intros cause ->. reflexivity.
  - unfold abortListener, IsConnected. intros c e -> -> ->. cbn. auto.
  - intros ops c Hl. destruct (run_listener_gone ops c Hl) as [H|H];
      [|exact H].
    apply lifecycle_waiters in H as Hw. destruct Hw as [H1 H2].
    apply lifecycle_listener in H. rewrite H. auto.
Qed.

End LifecycleFacts.

(** ** Reassembly with the codec of the scenarios *)

Lemma thresholdCodec_incomplete need buf :
  List.length buf < need ->
  thresholdCodec need buf = mkReadMessageResult INil false None [].
Proof.
  intros H. unfold thresholdCodec.
  destruct (Nat.leb_spec need (List.length buf)); [lia|reflexivity].
Qed.

Lemma thresholdCodec_complete need buf :
  need <= List.length buf ->
  thresholdCodec need buf
    = mkReadMessageResult (IMsg (firstn need buf)) true None (skipn need buf).
Proof.
  intros H. unfold thresholdCodec.
  destruct (Nat.leb_spec need (List.length buf)); [reflexivity|lia].
Qed.

Lemma Read_fits p data :
  List.length p <= List.length data ->
  Read p data = (List.length p, p ++ skipn (List.length p) data).
Proof.
  intros H. unfold Read. rewrite Nat.min_l by exact H.
  rewrite firstn_all. reflexivity.
Qed.

Lemma firstn_prefix {A : Type} (p q : list A) :
  firstn (List.length p) (p ++ q) = p.
Proof.
  rewrite firstn_app, Nat.sub_diag, firstn_all. cbn. apply app_nil_r.
Qed.

(** A message that arrives in two bounded reads is put together, wherever
    the second read ends with respect to the end of the message. *)
Lemma Receive_two_reads {any : Type} need p1 p2 pick
  (c : @defaultHubConnection any) :
  ctx c = None ->
  List.length p1 <= maximumReceiveMessageSize c ->
  List.length p2 <= maximumReceiveMessageSize c ->
  List.length p1 < need ->
  need <= List.length p1 + List.length p2 ->
  Receive (thresholdCodec need) [ok_read p1; ok_read p2] pick c
    = mkReceived (Returns (IMsg (firstn need (p1 ++ p2)), None)) c 2.
Proof.
  intros Hc H1 H2 Hlt Hge. unfold Receive. rewrite Hc.
  set (data := repeat Byte.x00 (maximumReceiveMessageSize c)).
  assert (Hdata : List.length data = maximumReceiveMessageSize c)
    by apply repeat_length.
  cbn [receiveLoop ok_read rs_read rs_during rs_pick cancelDuring].
  rewrite (thresholdCodec_incomplete need []) by (cbn; lia).
  cbn [rm_complete rm_rest negb firstn app]. rewrite Hc. cbn [isSome].
  rewrite select_alive, Read_fits by lia.
  rewrite firstn_prefix.
  rewrite (thresholdCodec_incomplete need p1) by exact Hlt.
  cbn [rm_complete rm_rest negb app].
  rewrite select_alive, Read_fits
    by (rewrite length_app, length_skipn; lia).
  rewrite firstn_prefix.
  rewrite (thresholdCodec_complete need (p1 ++ p2))
    by (rewrite length_app; exact Hge).
  cbn. rewrite Hc. reflexivity.
Qed.

(** The scenario of the specification: reads are capped at 32 bytes, the
    codec needs 50, the transport yields 32 and then 18 bytes. *)
Example Receive_32_then_18 pick :
  Receive (thresholdCodec 50) [ok_read first32; ok_read last18] pick
    (started 32)
  = mkReceived (Returns (IMsg (first32 ++ last18), None)) (started 32) 2.
Proof. reflexivity. Qed.

(** With a codec that leaves an incomplete buffer untouched, the refill of
    the loop doubles the first read. *)
Example Receive_32_then_18_peeking pick :
  rcv_result
    (Receive (peekingCodec 50) [ok_read first32; ok_read last18] pick
       (started 32))
  = Returns (IMsg (first32 ++ firstn 18 first32), None).
Proof. reflexivity. Qed.

(** C2 (the code departs from the claim at this input): a 50-byte message
    that arrives in three reads of 10, 10 and 30 bytes, each within the cap
    of 32, is not returned.  The refill of the loop restores the latest read
    only, so the first 10 bytes are gone when the third read arrives:
    [Receive] starts a fourth read and waits; and when the transport then
    yields the first 20 bytes of the next message, it returns a message made
    of the last 30 bytes of the first and those 20. *)
Theorem Receive_three_reads_loses_first_read pick :
  let three := [ok_read part10a; ok_read part10b; ok_read part30] in
  List.length (part10a ++ part10b ++ part30) = 50
  /\ Receive (thresholdCodec 50) three pick (started 32)
     = mkReceived Blocks (started 32) 4
  /\ Receive (thresholdCodec 50) (three ++ [ok_read next20]) pick (started 32)
     = mkReceived (Returns (IMsg (part30 ++ next20), None)) (started 32) 4.
Proof. repeat split. Qed.

(** C5 (the code departs from the claim at this input): the first transport
    read fails.  The loop aborts the connection and then passes the failure
    on, so both cases of the final [select] are ready, the context having
    ended first; when the [Done] case is taken the caller gets the
    cancellation failure, not the read failure. *)
Theorem Receive_failed_read_returns_cancellation :
  let r :=
    Receive (thresholdCodec 50) [failed_read "connection reset by peer"]
      DoneFirst (started 32) in
  rcv_reads r = 1
  /\ ctx (rcv_conn r) = Some context_Canceled
  /\ rcv_result r
     = Returns (INil, Some (Wrapped "hubConnection canceled" context_Canceled)).
Proof. repeat split. Qed.

(** The same call returns the read failure when the other case is taken. *)
Example Receive_failed_read_returns_failure :
  let r :=
    Receive (thresholdCodec 50) [failed_read "connection reset by peer"]
      OpFirst (started 32) in
  ctx (rcv_conn r) = Some context_Canceled
  /\ rcv_result r
     = Returns (IInt 0, Some (io_error "connection reset by peer")).
Proof. repeat split. Qed.

(** ** The theorems at concrete connections *)

Lemma writeMessage_waits_for_write_in_flight_witness :
  let r :=
    writeMessage ping 5%Z (WriteReturns None) (Some ByAbort) DoneFirst
      (started 32) in
  protocol (snd r) = [ping]
  /\ fst r
     = Returns (Some (Wrapped "hubConnection canceled" context_Canceled)).
Proof.
  exact (writeMessage_waits_for_write_in_flight ping 5%Z (WriteReturns None)
           (Some ByAbort) (started 32) context_Canceled eq_refl eq_refl).
Defined.

Lemma guardedSend_stamps_before_check_witness :
  let r := guardedSend CallPing 7%Z (WriteReturns None) None OpFirst
             (Abort (fresh 32)) in
  fst r = Returns (Some (Wrapped "hubConnection canceled" context_Canceled))
  /\ protocol (snd r) = [].
Proof.
  exact (proj2 (guardedSend_stamps_before_check CallPing 7%Z
                  (WriteReturns None) None OpFirst (Abort (fresh 32)))
           eq_refl).
Defined.

Lemma Receive_cancellation_witness :
  Receive (thresholdCodec 50) [] OpFirst (Abort (fresh 32))
    = mkReceived
        (Returns (INil, Some (Wrapped "hubConnection canceled"
                                context_Canceled)))
        (Abort (fresh 32)) 0
  /\ rcv_result (Receive (thresholdCodec 50) [ok_read first32] OpFirst
                   (started 32)) = Blocks
  /\ Receive (thresholdCodec 50) [ok_read first32; aborted_read] OpFirst
       (started 32)
     = mkReceived
         (Returns (INil, Some (Wrapped "hubConnection canceled"
                                 context_Canceled)))
         (Abort (started 32)) 2.
Proof.
  split; [|split].
  - exact (proj1 (Receive_cancellation (thresholdCodec 50)) [] OpFirst
             (Abort (fresh 32)) context_Canceled eq_refl).
  - reflexivity.
  - exact (proj1 (proj2 (Receive_cancellation (thresholdCodec 50)))
             [ok_read first32] aborted_read [] OpFirst (started 32)
             context_Canceled eq_refl eq_refl eq_refl eq_refl).
Defined.

(** The same for both cases of the final [select]. *)
Example Receive_aborted_while_reading pick :
  Receive (thresholdCodec 50) [ok_read first32; aborted_read] pick
    (started 32)
  = mkReceived
      (Returns (INil, Some (Wrapped "hubConnection canceled"
                              context_Canceled)))
      (Abort (started 32)) 2.
Proof. destruct pick; reflexivity. Qed.

Lemma connected_lifecycle_witness :
  @OpListener string = OpListener
  /\ isSome (ctx (Abort (started 32))) = true
  /\ listener (Abort (started 32)) = true
  /\ listener (exec (thresholdCodec 50) OpListener (Abort (started 32)))
     = false.
Proof.
  exact (proj1 (proj2 (proj2 (connected_lifecycle (thresholdCodec 50))))
           OpListener (Abort (started 32)) eq_refl eq_refl).
Defined.

Lemma abortListener_drains_once_witness :
  let c :=
    upstreamCancel context_DeadlineExceeded (registered [1; 2] (started 32)) in
  exists err,
    notified (abortListener c) = [(1, err); (2, err)]
    /\ (forall cause,
          connection c = Some cause ->
          err = Some (Wrapped "connection canceled" cause))
    /\ abortChans (abortListener c) = []
    /\ IsConnected (abortListener c) = false
    /\ listener (abortListener c) = false.
Proof.
  exact (proj1 (proj2 (abortListener_drains_once (thresholdCodec 50)))
           (upstreamCancel context_DeadlineExceeded
              (registered [1; 2] (started 32)))
           context_DeadlineExceeded eq_refl eq_refl eq_refl).
Defined.

(** ** Where the engine departs from the specification *)

(** Against C3: a connection is started, aborted, and seen by the listener;
    it is terminated, and [Start] makes [IsConnected] true again. *)
Lemma Start_after_termination_reconnects :
  let ops := [OpStart; OpAbort; OpListener] in
  let c := run (thresholdCodec 50) ops (fresh 32) in
  history (thresholdCodec 50) (ops ++ [OpStart]) (fresh 32)
    = [false; true; true; false; true]
  /\ ctx c = Some context_Canceled
  /\ listener c = false
  /\ IsConnected c = false
  /\ IsConnected (Start c) = true.
Proof. repeat split. Qed.

(** Against C9: on a connection that was never started the listener
    observes the cancellation, sends nothing and keeps the list; nothing is
    sent later either, the listener being gone. *)
Lemma never_started_waiters_not_notified :
  let c0 := registered [1; 2] (fresh 32) in
  let c := run (thresholdCodec 50) [OpAbort; OpListener] c0 in
  let c' := run (thresholdCodec 50) [OpStart; OpListener] c in
  ctx c = Some context_Canceled
  /\ notified c = [] /\ abortChans c = [1; 2] /\ listener c = false
  /\ notified c' = [] /\ abortChans c' = [1; 2].
Proof. repeat split. Qed.

(** After [Abort] on a connected connection each waiter is sent the result
    of wrapping the error of the transport's context, which is nil then. *)
Example waiters_after_Abort_receive_nil :
  let c := run (thresholdCodec 50) [OpStart; OpAbort; OpListener]
             (registered [1; 2] (fresh 32)) in
  notified c = [(1, None); (2, None)] /\ abortChans c = [].
Proof. repeat split. Qed.

(** ** Further properties of the engine *)

Section EngineMore.

Context {any D : Type}.
Variable ReadMessage : list byte -> @ReadMessageResult D.

Implicit Types c : @defaultHubConnection any.
Implicit Types o : @Op any.
Implicit Types k : @SendCall any.
Implicit Types message : @Message any.

Local Abbreviation exec' := (exec ReadMessage).
Local Abbreviation run' := (run ReadMessage).
Local Abbreviation loop := (receiveLoop ReadMessage).

Ltac split_cases :=
  repeat match goal with
         | |- context [match ?x with _ => _ end] => destruct x eqn:?; cbn
         end.

Lemma run_cons o ops c : run' (o :: ops) c = run' ops (exec' o c).
Proof. reflexivity. Qed.

(** *** The context *)

Lemma writeMessage_ctx_sticky message now w during pick c e :
  ctx c = Some e ->
  ctx (snd (writeMessage message now w during pick c)) = Some e.
Proof.
  intros He. unfold writeMessage, IsConnected. cbn.
  destruct (connected c); cbn.
  - set (c1 := set_protocol _ _).
    assert (H1 : ctx (cancelDuring during c1) = Some e)
      by (apply ctx_sticky_cancelDuring; exact He).
    assert (H2 : ctx (Abort (cancelDuring during c1)) = Some e)
      by (apply ctx_sticky_Abort; exact H1).
    destruct (select _ _ _) as [|[e'|]|]; destruct w as [[e''|]|]; cbn;
      try exact H1; try exact H2;
      match goal with
      | |- context [Wrap ?a ?b] => destruct (Wrap a b); cbn; exact H1
      end.
  - rewrite He. cbn. exact He.
Qed.

Lemma receiveLoop_ctx_sticky sched : forall buf data n reads c e,
  ctx c = Some e -> ctx (ls_conn (loop sched buf data n reads c)) = Some e.
Proof.
  induction sched as [|s sched IH]; intros buf data n reads c e He;
    cbn [receiveLoop].
  - destruct (rm_complete _); cbn; [exact He|].
    destruct (isSome (ctx c)); exact He.
  - destruct (rm_complete _); cbn [negb]; [exact He|].
    assert (H1 := ctx_sticky_cancelDuring (rs_during s) c e He).
    destruct (select _ _ _) as [|[[n' data'] [e'|]]|]; cbn [ls_conn];
      auto using ctx_sticky_Abort.
Qed.

Lemma exec_ctx_sticky o c e : ctx c = Some e -> ctx (exec' o c) = Some e.
Proof.
  intros He. destruct o; cbn [exec].
  - exact He.
  - apply ctx_sticky_Abort, He.
  - apply ctx_sticky_upstream, He.
  - unfold abortListener. rewrite He.
    destruct (listener c); [|exact He]. destruct (connected c); exact He.
  - destruct k; apply writeMessage_ctx_sticky, He.
  - destruct w; exact He.
  - unfold Receive. rewrite He. exact He.
Qed.

(** X1: the context of a connection, once ended, stays ended with the cause
    it ended with, whatever is done with the connection afterwards: a later
    [Abort], the end of the transport's context, sends, [Close], [Receive],
    [Start]. *)
Theorem ctx_ended_for_ever (ops : list (@Op any)) : forall c e,
  ctx c = Some e -> ctx (run' ops c) = Some e.
Proof.
  induction ops as [|o ops IH]; intros c e He; [exact He|].
  rewrite run_cons. apply IH, exec_ctx_sticky, He.
Qed.

Lemma Abort_derived c : derived any c -> derived any (Abort c).
Proof.
  unfold derived, Abort. intros H. destruct (ctx c) eqn:E; cbn; [|auto].
  rewrite E. exact H.
Qed.

Lemma upstreamCancel_derived cause c :
  derived any c -> derived any (upstreamCancel cause c).
Proof.
  unfold derived, upstreamCancel. intros H.
  destruct (connection c) eqn:E; [rewrite E; exact H|].
  cbn. destruct (ctx c) eqn:E'; cbn; [rewrite E'|]; auto.
Qed.

Lemma cancelDuring_derived during c :
  derived any c -> derived any (cancelDuring during c).
Proof.
  destruct during as [[|cause]|]; cbn;
    auto using Abort_derived, upstreamCancel_derived.
Qed.

Lemma derived_frame c c' :
  ctx c' = ctx c -> connection c' = connection c ->
  derived any c -> derived any c'.
Proof. unfold derived. intros -> ->. auto. Qed.

Lemma writeMessage_derived message now w during pick c :
  derived any c ->
  derived any (snd (writeMessage message now w during pick c)).
Proof.
  intros H. unfold writeMessage, IsConnected. cbn.
  destruct (connected c); cbn.
  - set (c1 := set_protocol _ _).
    assert (H0 : derived any c1) by exact H.
    assert (H1 := cancelDuring_derived during c1 H0).
    assert (H2 := Abort_derived _ H1).
    destruct (select _ _ _) as [|[e'|]|]; destruct w as [[e''|]|]; cbn;
      try exact H1; try exact H2;
      match goal with
      | |- context [Wrap ?a ?b] => destruct (Wrap a b); cbn; exact H1
      end.
  - destruct (Wrap _ _); exact H.
Qed.

Lemma receiveLoop_derived sched : forall buf data n reads c,
  derived any c -> derived any (ls_conn (loop sched buf data n reads c)).
Proof.
  induction sched as [|s sched IH]; intros buf data n reads c H;
    cbn [receiveLoop].
  - destruct (rm_complete _); cbn; [exact H|].
    destruct (isSome (ctx c)); exact H.
  - destruct (rm_complete _); cbn [negb]; [exact H|].
    assert (H1 := cancelDuring_derived (rs_during s) c H).
    destruct (select _ _ _) as [|[[n' data'] [e'|]]|]; cbn [ls_conn];
      auto using Abort_derived.
Qed.

Lemma exec_derived o c : derived any c -> derived any (exec' o c).
Proof.
  intros H. destruct o; cbn [exec].
  - exact H.
  - apply Abort_derived, H.
  - apply upstreamCancel_derived, H.
  - unfold abortListener. destruct (listener c); [|exact H].
    destruct (ctx c) eqn:E; [|exact H]. destruct (connected c); exact H.
  - destruct k; apply writeMessage_derived, H.
  - destruct w; exact H.
  - unfold Receive. destruct (ctx c) eqn:E; [exact H|].
    destruct (select _ _ _); cbn [rcv_conn]; apply receiveLoop_derived, H.
Qed.

(** X2: the engine's context is derived from the transport's: in every
    state that a new connection can reach, the engine's context has ended
    whenever the transport's has. *)
Theorem engine_context_follows_transport
  (ops : list (@Op any)) upstream m e :
  connection (run' ops (newHubConnection upstream m)) = Some e ->
  isSome (ctx (run' ops (newHubConnection upstream m))) = true.
Proof.
  assert (G : forall c, derived any c -> derived any (run' ops c)).
  { induction ops as [|o ops IH]; intros c H; [exact H|].
    rewrite run_cons. apply IH, exec_derived, H. }
  intros H. apply G.
  - unfold derived. cbn. auto.
  - rewrite H. reflexivity.
Qed.

(** *** What the operations leave alone *)

Lemma cancelDuring_besides during c :
  besidesContexts (cancelDuring during c) = besidesContexts c.
Proof.
  destruct during as [[|cause]|]; cbn; unfold Abort, upstreamCancel;
    split_cases; reflexivity.
Qed.

Lemma Abort_besides c : besidesContexts (Abort c) = besidesContexts c.
Proof. exact (cancelDuring_besides (Some ByAbort) c). Qed.

Lemma receiveLoop_besides sched : forall buf data n reads c,
  besidesContexts (ls_conn (loop sched buf data n reads c))
    = besidesContexts c.
Proof.
  induction sched as [|s sched IH]; intros buf data n reads c;
    cbn [receiveLoop].
  - destruct (rm_complete _); cbn; [reflexivity|].
    destruct (isSome (ctx c)); reflexivity.
  - destruct (rm_complete _); cbn [negb]; [reflexivity|].
    destruct (select _ _ _) as [|[[n' data'] [e'|]]|]; cbn [ls_conn];
      rewrite ?IH, ?Abort_besides; apply cancelDuring_besides.
Qed.

Lemma Receive_besides sched pick c :
  besidesContexts (rcv_conn (Receive ReadMessage sched pick c))
    = besidesContexts c.
Proof.
  unfold Receive. destruct (ctx c); [reflexivity|].
  destruct (select _ _ _); cbn [rcv_conn]; apply receiveLoop_besides.
Qed.

(** X3: [Receive] can end the engine's context and does nothing else to the
    engine: it hands nothing to the codec's writer, logs nothing, and leaves
    the connected flag, the waiters and [lastWriteStamp] as they are,
    whatever the transport and the codec answer. *)
Theorem Receive_changes_contexts_only sched pick c :
  let c' := rcv_conn (Receive ReadMessage sched pick c) in
  protocol c' = protocol c
  /\ info c' = info c
  /\ LastWriteStamp c' = LastWriteStamp c
  /\ IsConnected c' = IsConnected c
  /\ abortChans c' = abortChans c
  /\ notified c' = notified c
  /\ listener c' = listener c
  /\ maximumReceiveMessageSize c' = maximumReceiveMessageSize c.
Proof.
  generalize (Receive_besides sched pick c).
  unfold besidesContexts, LastWriteStamp, IsConnected. cbn zeta.
  intros H. repeat split; congruence.
Qed.

Lemma besides_stamp c c' :
  besidesContexts c' = besidesContexts c ->
  lastWriteStamp c' = lastWriteStamp c.
Proof. unfold besidesContexts. congruence. Qed.

Lemma besides_info c c' :
  besidesContexts c' = besidesContexts c -> info c' = info c.
Proof. unfold besidesContexts. congruence. Qed.

(** X4: the stamp read by [LastWriteStamp] after any sequence of operations
    is the time of the latest guarded send in it, whether that send was
    written, failed or was rejected; no other operation, [Close] and
    [Receive] included, changes the stamp. *)
Theorem LastWriteStamp_is_latest_send (ops : list (@Op any)) : forall c,
  LastWriteStamp (run' ops c) = lastStamp ops (LastWriteStamp c).
Proof.
  unfold LastWriteStamp, lastStamp.
  induction ops as [|o ops IH]; intros c; [reflexivity|].
  rewrite run_cons, IH. cbn [fold_left]. f_equal.
  destruct o; cbn [exec stamped].
  - reflexivity.
  - apply besides_stamp, Abort_besides.
  - apply besides_stamp.
    exact (cancelDuring_besides (Some (ByUpstream cause)) c).
  - unfold abortListener. split_cases; reflexivity.
  - destruct k; apply writeMessage_stamp.
  - destruct w; reflexivity.
  - apply besides_stamp, Receive_besides.
Qed.

(** X5: operations other than [Start] and the abort listener never change
    the connected flag, the list of waiters, or what has been sent to them. *)
Theorem lifecycle_written_by_Start_and_listener (ops : list (@Op any)) :
  forall c,
  existsb writesLifecycle ops = false ->
  IsConnected (run' ops c) = IsConnected c
  /\ abortChans (run' ops c) = abortChans c
  /\ notified (run' ops c) = notified c.
Proof.
  induction ops as [|o ops IH]; intros c H; [auto|].
  cbn in H. apply orb_false_elim in H. destruct H as [Ho H].
  rewrite run_cons. destruct (IH (exec' o c) H) as [H1 [H2 H3]].
  assert (L : lifecycle (exec' o c) = lifecycle c).
  { destruct o; cbn in Ho; try discriminate.
    - apply Abort_lifecycle.
    - apply upstreamCancel_lifecycle.
    - apply guardedSend_lifecycle.
    - apply Close_lifecycle.
    - apply Receive_lifecycle. }
  unfold lifecycle, IsConnected in *. rewrite H1, H2, H3.
  repeat split; congruence.
Qed.

(** *** The guarded send path *)

Lemma cancelDuring_protocol during c :
  protocol (cancelDuring during c) = protocol c.
Proof.
  generalize (cancelDuring_besides during c). unfold besidesContexts.
  congruence.
Qed.

(** X6: a guarded send writes a record to the logger exactly when it
    returns a failure, and the record holds the message and that failure;
    a send that returns nil or does not return logs nothing. *)
Theorem guardedSend_logs_its_failures message now w during pick c :
  let r := writeMessage message now w during pick c in
  info (snd r)
    = info c ++ match fst r with
                | Returns (Some err) => [(message, err)]
                | _ => []
                end.
Proof.
  unfold writeMessage, IsConnected. cbn.
  destruct (connected c); cbn.
  - set (c1 := set_protocol _ _).
    assert (H1 : info (cancelDuring during c1) = info c)
      by (rewrite (besides_info c1); [reflexivity|
          apply cancelDuring_besides]).
    assert (H2 : info (Abort (cancelDuring during c1)) = info c)
      by (rewrite (besides_info (cancelDuring during c1)); [exact H1|
          apply Abort_besides]).
    destruct (select _ _ _) as [|[e'|]|]; destruct w as [[e''|]|]; cbn;
      rewrite ?app_nil_r, ?H1, ?H2; try reflexivity;
      match goal with
      | |- context [Wrap ?a ?b] =>
          destruct (Wrap a b); cbn; rewrite ?app_nil_r, ?H1; reflexivity
      end.
  - destruct (Wrap _ _); cbn; rewrite ?app_nil_r; reflexivity.
Qed.

(** X7: on a connected connection whose context is alive, a write that the
    codec completes without error makes the send return nil; the send has
    stored the time and handed the message to the codec, and has changed
    nothing else: the context is not ended and nothing is logged. *)
Theorem guardedSend_success k now pick c :
  IsConnected c = true ->
  ctx c = None ->
  exists message,
    guardedSend k now (WriteReturns None) None pick c
      = (Returns None,
         set_protocol (protocol c ++ [message]) (set_lastWriteStamp now c)).
Proof.
  intros Hc He.
  assert (W : forall message,
    writeMessage message now (WriteReturns None) None pick c
      = (Returns None,
         set_protocol (protocol c ++ [message]) (set_lastWriteStamp now c))).
  { intros message. unfold writeMessage. unfold IsConnected in *. cbn.
    rewrite Hc, He. reflexivity. }
  destruct k; cbn [guardedSend]; eexists; apply W.
Qed.

(** X8: on a connected connection whose context stays alive, a write that
    the codec fails makes every guarded sender return that failure, and the
    engine's context has ended when it returns. *)
Theorem guardedSend_failed_write_aborts k now pick c e :
  IsConnected c = true ->
  ctx c = None ->
  let r := guardedSend k now (WriteReturns (Some e)) None pick c in
  fst r = Returns (Some e) /\ ctx (snd r) = Some context_Canceled.
Proof.
  intros Hc He.
  assert (W : forall message,
    let r := writeMessage message now (WriteReturns (Some e)) None pick c in
    fst r = Returns (Some e) /\ ctx (snd r) = Some context_Canceled).
  { intros message. unfold writeMessage. unfold IsConnected in *. cbn.
    rewrite Hc, He. cbn. unfold Abort. cbn. rewrite He. cbn. auto. }
  destruct k; apply W.
Qed.

Lemma run_not_restarted (ops : list (@Op any)) : forall c e,
  IsConnected c = false ->
  ctx c = Some e ->
  existsb isStart ops = false ->
  IsConnected (run' ops c) = false /\ ctx (run' ops c) = Some e.
Proof.
  induction ops as [|o ops IH]; intros c e Hc He Hs; [auto|].
  cbn in Hs. apply orb_false_elim in Hs. destruct Hs as [Ho Hs].
  rewrite run_cons. apply IH; [|apply exec_ctx_sticky, He|exact Hs].
  destruct (IsConnected (exec' o c)) eqn:E; [|reflexivity].
  rewrite (exec_rise ReadMessage o c Hc E) in Ho. discriminate.
Qed.

(** X9: once the abort listener has seen the end of the context, and for as
    long as [Start] is not called again, every guarded send is rejected
    with the wrapped cause of that end, and the codec's writer is not
    called, whatever else has been done with the connection meanwhile. *)
Theorem guardedSend_after_listener_rejected
  k now w during pick (ops : list (@Op any)) c e :
  ctx c = Some e ->
  listener c = true ->
  existsb isStart ops = false ->
  let c' := run' ops (abortListener c) in
  let r := guardedSend k now w during pick c' in
  fst r = Returns (Some (Wrapped "hubConnection canceled" e))
  /\ protocol (snd r) = protocol c'.
Proof.
  intros He Hl Hs.
  assert (H1 : IsConnected (abortListener c) = false)
    by (unfold abortListener, IsConnected; rewrite Hl, He;
        destruct (connected c) eqn:E; cbn; [reflexivity|exact E]).
  assert (H2 : ctx (abortListener c) = Some e)
    by (unfold abortListener; rewrite Hl, He;
        destruct (connected c); cbn; exact He).
  destruct (run_not_restarted ops (abortListener c) e H1 H2 Hs) as [H3 H4].
  cbn zeta. destruct k; cbn [guardedSend];
    apply writeMessage_rejected_after_cancel; assumption.
Qed.

End EngineMore.

(** ** Further properties of [Receive] *)

Section ReceiveMore.

Context {any D : Type}.
Variable ReadMessage : list byte -> @ReadMessageResult D.

Implicit Types c : @defaultHubConnection any.
Implicit Types sched : list ReadStep.

Local Abbreviation loop := (receiveLoop ReadMessage).

Lemma receiveLoop_quiet sched : forall buf data n reads c,
  ctx c = None ->
  forallb quietRead sched = true ->
  let l := loop sched buf data n reads c in
  ls_conn l = c
  /\ ((ls_result l = Blocks /\ ls_reads l = S (reads + List.length sched))
      \/ (exists buf',
            rm_complete (ReadMessage buf') = true
            /\ ls_result l
               = Returns (mkReceiveResult (rm_message (ReadMessage buf'))
                            (rm_err (ReadMessage buf')))
            /\ ls_reads l <= reads + List.length sched)).
Proof.
  induction sched as [|s sched IH]; intros buf data n reads c Hc Hq;
    cbn [receiveLoop].
  - destruct (rm_complete (ReadMessage buf)) eqn:E; cbn [negb].
    + cbn. split; [reflexivity|]. right. exists buf. rewrite E.
      repeat split. lia.
    + rewrite Hc. cbn. split; [reflexivity|]. left. split; [reflexivity|lia].
  - cbn in Hq. apply andb_prop in Hq. destruct Hq as [Hs Hq].
    destruct (quietRead_inv s Hs) as [p [Hr Hd]].
    destruct (rm_complete (ReadMessage buf)) eqn:E; cbn [negb].
    + cbn. split; [reflexivity|]. right. exists buf. rewrite E.
      repeat split. lia.
    + rewrite Hd, Hr. cbn [cancelDuring]. rewrite Hc. cbn [isSome].
      rewrite select_alive. destruct (Read p data) as [n' data'].
      destruct (IH ((rm_rest (ReadMessage buf) ++ firstn n data)
                      ++ firstn n' data') data' n' (S reads) c Hc Hq)
        as [H1 [[H2 H3]|[buf' [H2 [H3 H4]]]]].
      * split; [exact H1|]. left. split; [exact H2|]. rewrite H3. cbn. lia.
      * split; [exact H1|]. right. exists buf'. repeat split; auto.
        cbn. lia.
Qed.

(** X10: while the transport's reads succeed and nothing cancels the
    connection, [Receive] leaves the connection untouched and returns only
    what the codec reported for a buffer it found complete, the codec's
    parse error included: a parse error does not abort.  When the reads are
    used up before the codec is satisfied, [Receive] waits in one more read. *)
Theorem Receive_returns_codec_result sched pick c :
  ctx c = None ->
  forallb quietRead sched = true ->
  let r := Receive ReadMessage sched pick c in
  rcv_conn r = c
  /\ ((rcv_result r = Blocks /\ rcv_reads r = S (List.length sched))
      \/ (exists buf,
            rm_complete (ReadMessage buf) = true
            /\ rcv_result r
               = Returns (rm_message (ReadMessage buf),
                          rm_err (ReadMessage buf))
            /\ rcv_reads r <= List.length sched)).
Proof.
  intros Hc Hq. unfold Receive. rewrite Hc.
  destruct (receiveLoop_quiet sched []
              (repeat Byte.x00 (maximumReceiveMessageSize c)) 0 0 c Hc Hq)
    as [H1 [[H2 H3]|[buf [H2 [H3 H4]]]]]; rewrite H1, Hc, ?H2, ?H3; cbn.
  - split; [reflexivity|]. left. split; reflexivity.
  - split; [reflexivity|]. right. exists buf. repeat split; assumption.
Qed.

Lemma receiveLoop_zero_cap sched : forall n reads c,
  ctx c = None ->
  forallb quietRead sched = true ->
  rm_complete (ReadMessage []) = false ->
  rm_rest (ReadMessage []) = [] ->
  loop sched [] [] n reads c
    = mkLoopState Blocks c (S (reads + List.length sched)).
Proof.
  induction sched as [|s sched IH]; intros n reads c Hc Hq Hi Hr;
    cbn [receiveLoop]; rewrite Hi; cbn [negb].
  - rewrite Hc. cbn. rewrite Nat.add_0_r. reflexivity.
  - cbn in Hq. apply andb_prop in Hq. destruct Hq as [Hs Hq].
    destruct (quietRead_inv s Hs) as [p [Hp Hd]].
    rewrite Hd, Hp, Hr. cbn [cancelDuring]. rewrite Hc. cbn [isSome].
    rewrite select_alive. unfold Read. cbn [List.length].
    rewrite Nat.min_0_r. cbn [firstn skipn app].
    rewrite firstn_nil. cbn [app].
    rewrite (IH 0 (S reads) c Hc Hq Hi Hr). f_equal. cbn. lia.
Qed.

(** X11: with [maximumReceiveMessageSize] 0 the scratch slice is empty, so
    every read yields no byte and the codec is offered the empty buffer each
    time: unless the codec completes a message from nothing, [Receive]
    never returns one, however much the transport has. *)
Theorem Receive_zero_cap_never_completes sched pick c :
  maximumReceiveMessageSize c = 0 ->
  ctx c = None ->
  forallb quietRead sched = true ->
  rm_complete (ReadMessage []) = false ->
  rm_rest (ReadMessage []) = [] ->
  Receive ReadMessage sched pick c
    = mkReceived Blocks c (S (List.length sched)).
Proof.
  intros Hm Hc Hq Hi Hr. unfold Receive. rewrite Hc, Hm. cbn [repeat].
  rewrite (receiveLoop_zero_cap sched 0 0 c Hc Hq Hi Hr). cbn.
  rewrite Hc. reflexivity.
Qed.

(** X12: when, after reads that left the codec unsatisfied (with those
    reads alone [Receive] waits in the next one), the next read of the
    transport fails on a live connection, [Receive] ends the engine's
    context with [context.Canceled], changes nothing else, and returns a
    failure: the read failure or the wrapped cancellation, as the final
    [select] takes it.  The only other case is that the codec had completed
    a message with the earlier reads: then [Receive] has returned the
    codec's result before that read was started.  In particular, with a
    codec that never completes, the failed read always aborts. *)
Theorem Receive_failed_read_aborts :
  (forall pre s post p e pick c,
     ctx c = None ->
     forallb quietRead pre = true ->
     rs_read s = ReadReturns p (Some e) ->
     rs_during s = None ->
     match rcv_result (Receive ReadMessage pre pick c) with
     | Blocks =>
         let r := Receive ReadMessage (pre ++ s :: post) pick c in
         rcv_reads r = S (List.length pre)
         /\ rcv_conn r = Abort c
         /\ ctx (rcv_conn r) = Some context_Canceled
         /\ exists n,
              rcv_result r
              = Returns
                  match pick with
                  | OpFirst => (IInt n, Some e)
                  | DoneFirst =>
                      (INil,
                       Some (Wrapped "hubConnection canceled"
                               context_Canceled))
                  end
     | Returns x =>
         Receive ReadMessage (pre ++ s :: post) pick c
         = Receive ReadMessage pre pick c
         /\ exists buf,
              rm_complete (ReadMessage buf) = true
              /\ x = (rm_message (ReadMessage buf), rm_err (ReadMessage buf))
     end)
  /\ (forall pre s post p e pick c,
        (forall buf, rm_complete (ReadMessage buf) = false) ->
        ctx c = None ->
        forallb quietRead pre = true ->
        rs_read s = ReadReturns p (Some e) ->
        rs_during s = None ->
        let r := Receive ReadMessage (pre ++ s :: post) pick c in
        rcv_reads r = S (List.length pre)
        /\ rcv_conn r = Abort c
        /\ ctx (rcv_conn r) = Some context_Canceled
        /\ exists m failure, rcv_result r = Returns (m, Some failure)).
Proof.
  assert (G : forall pre s post p e pick c,
    ctx c = None ->
    forallb quietRead pre = true ->
    rs_read s = ReadReturns p (Some e) ->
    rs_during s = None ->
    (exists buf,
       rm_complete (ReadMessage buf) = true
       /\ rcv_result (Receive ReadMessage pre pick c)
          = Returns (rm_message (ReadMessage buf), rm_err (ReadMessage buf))
       /\ Receive ReadMessage (pre ++ s :: post) pick c
          = Receive ReadMessage pre pick c)
    \/ (rcv_result (Receive ReadMessage pre pick c) = Blocks
        /\ let r := Receive ReadMessage (pre ++ s :: post) pick c in
           rcv_reads r = S (List.length pre)
           /\ rcv_conn r = Abort c
           /\ ctx (rcv_conn r) = Some context_Canceled
           /\ exists n,
                rcv_result r
                = Returns
                    match pick with
                    | OpFirst => (IInt n, Some e)
                    | DoneFirst =>
                        (INil,
                         Some (Wrapped "hubConnection canceled"
                                 context_Canceled))
                    end)).
  { intros pre s post p e pick c Hc Hq Hr Hd. unfold Receive. rewrite Hc.
    destruct (receiveLoop_quiet_split ReadMessage pre []
                (repeat Byte.x00 (maximumReceiveMessageSize c)) 0 0 c Hc Hq)
      as [[buf' [k [H0 H]]]|[buf' [data' [n' [H1 [H2 H3]]]]]].
    - left. exists buf'. split; [exact H0|].
      rewrite (H (s :: post)). generalize (H []). rewrite app_nil_r.
      intros ->. cbn. rewrite Hc. cbn. split; reflexivity.
    - right. rewrite H2, (H3 (s :: post)).
      cbn [ls_conn ls_result loop_answer].
      rewrite Hc. cbn [isSome select rcv_result].
      split; [reflexivity|].
      cbn [receiveLoop]. rewrite H1, Hr, Hd. cbn [negb cancelDuring].
      rewrite Hc. cbn [isSome]. rewrite select_alive.
      destruct (Read p data') as [m data'']. cbn [ls_conn ls_result ls_reads
        loop_answer]. unfold Abort. rewrite Hc. cbn.
      destruct pick; cbn; (split; [reflexivity|]); (split; [reflexivity|]);
        (split; [reflexivity|]); exists (Z.of_nat m); reflexivity. }
  split.
  - intros pre s post p e pick c Hc Hq Hr Hd.
    destruct (G pre s post p e pick c Hc Hq Hr Hd)
      as [[buf [H0 [H1 H2]]]|[H1 H2]]; rewrite H1.
    + split; [exact H2|]. exists buf. auto.
    + exact H2.
  - intros pre s post p e pick c Hn Hc Hq Hr Hd.
    destruct (G pre s post p e pick c Hc Hq Hr Hd)
      as [[buf [H0 _]]|[_ H2]]; [rewrite Hn in H0; discriminate|].
    cbn zeta in *. destruct H2 as [H2 [H3 [H4 [n H5]]]].
    repeat split; try assumption. rewrite H5. destruct pick; eauto.
Qed.

(** X13: with a codec that reports the empty buffer and the first read as
    incomplete and has consumed them, the buffer offered after the second
    read is the first read followed by the second, both taken whole when
    they fit the cap; [Receive] returns what the codec makes of it, after
    two reads. *)
Theorem Receive_offers_both_reads p1 p2 pick c :
  ctx c = None ->
  List.length p1 <= maximumReceiveMessageSize c ->
  List.length p2 <= maximumReceiveMessageSize c ->
  rm_complete (ReadMessage []) = false ->
  rm_rest (ReadMessage []) = [] ->
  rm_complete (ReadMessage p1) = false ->
  rm_rest (ReadMessage p1) = [] ->
  rm_complete (ReadMessage (p1 ++ p2)) = true ->
  Receive ReadMessage [ok_read p1; ok_read p2] pick c
    = mkReceived
        (Returns (rm_message (ReadMessage (p1 ++ p2)),
                  rm_err (ReadMessage (p1 ++ p2)))) c 2.
Proof.
  intros Hc H1 H2 E0 R0 E1 R1 E2. unfold Receive. rewrite Hc.
  set (data := repeat Byte.x00 (maximumReceiveMessageSize c)).
  assert (Hdata : List.length data = maximumReceiveMessageSize c)
    by apply repeat_length.
  cbn [receiveLoop ok_read rs_read rs_during rs_pick cancelDuring].
  rewrite E0, R0. cbn [negb firstn app]. rewrite Hc. cbn [isSome].
  rewrite select_alive, Read_fits by lia.
  rewrite firstn_prefix, E1, R1. cbn [negb app].
  rewrite select_alive, Read_fits
    by (rewrite length_app, length_skipn; lia).
  rewrite firstn_prefix, E2. cbn. rewrite Hc. reflexivity.
Qed.

End ReceiveMore.

(** ** Connection identifiers *)

Ltac euclid := zify; Z.to_euclidean_division_equations; lia.

Lemma encodeStd_places (k : nat) :
  k < 64 ->
  match String.get k encodeStd with
  | Some a =>
      indexOf a encodeStd = Some (N.of_nat k)
      /\ Ascii.eqb a "="%char = false
  | None => False
  end.
Proof.
  intros H.
  do 64 (destruct k as [|k]; [split; reflexivity|]).
  lia.
Qed.

Lemma sextet_place v :
  indexOf (sextet v) encodeStd = Some (v mod 64)%N
  /\ Ascii.eqb (sextet v) "="%char = false.
Proof.
  unfold sextet.
  assert (H : N.to_nat (v mod 64) < 64)
    by (pose proof (N.mod_upper_bound v 64); lia).
  generalize (encodeStd_places _ H).
  rewrite N2Nat.id.
  destruct (String.get _ encodeStd); [auto|contradiction].
Qed.

Lemma indexOf_sextet v : indexOf (sextet v) encodeStd = Some (v mod 64)%N.
Proof. apply sextet_place. Qed.

Lemma sextet_not_pad v : Ascii.eqb (sextet v) "="%char = false.
Proof. apply sextet_place. Qed.

Lemma to_N_byte a : (Byte.to_N a <= 255)%N.
Proof. apply Byte.to_N_bounded. Qed.

Lemma bytes3_of_three a b c :
  let val := (Byte.to_N a * 65536 + Byte.to_N b * 256 + Byte.to_N c)%N in
  bytes3 ((val / 262144) mod 64) ((val / 4096) mod 64) ((val / 64) mod 64)
    (val mod 64) = Some [a; b; c].
Proof.
  pose proof (to_N_byte a). pose proof (to_N_byte b).
  pose proof (to_N_byte c). cbn zeta. unfold bytes3.
  set (x := Byte.to_N a) in *. set (y := Byte.to_N b) in *.
  set (z := Byte.to_N c) in *.
  replace (_ * 4 + _ / 16)%N with x by euclid.
  replace (_ mod 16 * 16 + _ / 4)%N with y by euclid.
  replace (_ mod 4 * 64 + _)%N with z by euclid.
  subst x y z. rewrite !Byte.of_to_N. reflexivity.
Qed.

Lemma bytes3_of_two a b :
  let val := (Byte.to_N a * 65536 + Byte.to_N b * 256)%N in
  bytes3 ((val / 262144) mod 64) ((val / 4096) mod 64) ((val / 64) mod 64) 0
    = Some [a; b; Byte.x00].
Proof.
  pose proof (to_N_byte a). pose proof (to_N_byte b).
  cbn zeta. unfold bytes3.
  set (x := Byte.to_N a) in *. set (y := Byte.to_N b) in *.
  replace (_ * 4 + _ / 16)%N with x by euclid.
  replace (_ mod 16 * 16 + _ / 4)%N with y by euclid.
  replace (_ mod 4 * 64 + 0)%N with 0%N by euclid.
  subst x y. rewrite !Byte.of_to_N. reflexivity.
Qed.

Lemma byte_of_one a :
  let val := (Byte.to_N a * 65536)%N in
  Byte.of_N ((val / 262144) mod 64 * 4 + (val / 4096) mod 64 / 16)
    = Some a.
Proof.
  pose proof (to_N_byte a). cbn zeta.
  set (x := Byte.to_N a) in *.
  replace (_ * 4 + _ / 16)%N with x by euclid.
  apply Byte.of_to_N.
Qed.

Lemma list_ind3 {A : Type} (P : list A -> Prop) :
  P [] -> (forall a, P [a]) -> (forall a b, P [a; b]) ->
  (forall a b c l, P l -> P (a :: b :: c :: l)) ->
  forall l, P l.
Proof.
  intros H0 H1 H2 H3.
  assert (G : forall l, P l /\ (forall a, P (a :: l))
                        /\ (forall a b, P (a :: b :: l))).
  { induction l as [|x l [IH0 [IH1 IH2]]]; [auto|].
    split; [apply IH1|]. split; [intros a; apply IH2|].
    intros a b. apply H3, IH0. }
  intros l. apply G.
Qed.

(** Decoding gives back the bytes that were encoded. *)
Lemma DecodeString_EncodeToString src :
  DecodeString (EncodeToString src) = Some src.
Proof.
  induction src as [|a|a b|a b c rest IH] using list_ind3.
  - reflexivity.
  - cbn [EncodeToString DecodeString].
    rewrite !indexOf_sextet. cbn [Ascii.eqb Bool.eqb andb].
    change (Ascii.eqb "="%char "="%char) with true. cbn iota.
    rewrite byte_of_one. reflexivity.
  - cbn [EncodeToString DecodeString].
    rewrite !indexOf_sextet.
    change (Ascii.eqb "="%char "="%char) with true. cbn iota.
    rewrite sextet_not_pad, bytes3_of_two. reflexivity.
  - cbn [EncodeToString DecodeString].
    rewrite !indexOf_sextet, sextet_not_pad, IH, bytes3_of_three.
    reflexivity.
Qed.

Lemma EncodeToString_injective src src' :
  EncodeToString src = EncodeToString src' -> src = src'.
Proof.
  intros H. apply (f_equal DecodeString) in H.
  rewrite !DecodeString_EncodeToString in H. congruence.
Qed.

Lemma randomBytes_length r : List.length (randomBytes r) = 16.
Proof.
  unfold randomBytes. rewrite length_firstn, length_app, repeat_length. lia.
Qed.

Lemma randomBytes_filled r :
  List.length (rand_written r) = 16 -> randomBytes r = rand_written r.
Proof.
  intros H. unfold randomBytes.
  rewrite firstn_app, H, Nat.sub_diag, <- H, firstn_all. cbn.
  apply app_nil_r.
Qed.

Lemma getConnectionID_length r :
  String.length (fst (getConnectionID r)) = 24.
Proof.
  unfold getConnectionID. cbn [fst].
  pose proof (randomBytes_length r) as H.
  destruct (randomBytes r) as [|b1 l]; [discriminate|].
  do 15 (destruct l as [|? l]; [discriminate|]).
  destruct l; [|discriminate]. reflexivity.
Qed.

(** X14: whatever [rand.Read] did, [getConnectionID] returns an identifier
    of 24 characters: 22 characters of the base64 alphabet followed by two
    padding characters. *)
Theorem getConnectionID_shape r :
  let id := fst (getConnectionID r) in
  String.length id = 24
  /\ String.substring 22 2 id = "=="
  /\ (forall i, i < 22 ->
        exists ch, String.get i id = Some ch
                   /\ indexOf ch encodeStd <> None).
Proof.
  unfold getConnectionID. cbn [fst].
  pose proof (randomBytes_length r) as H.
  destruct (randomBytes r) as [|b1 l]; [discriminate|].
  do 15 (destruct l as [|? l]; [discriminate|]).
  destruct l; [|discriminate]. clear H.
  cbn [EncodeToString]. split; [reflexivity|]. split; [reflexivity|].
  intros i Hi.
  do 22 (destruct i as [|i];
         [eexists; split; [reflexivity|rewrite indexOf_sextet; discriminate]
         |]).
  lia.
Qed.

(** X15: identifiers made from full 16-byte draws of the random source are
    equal only when the draws are equal: the encoding loses nothing. *)
Theorem getConnectionID_injective r r' :
  List.length (rand_written r) = 16 ->
  List.length (rand_written r') = 16 ->
  fst (getConnectionID r) = fst (getConnectionID r') ->
  rand_written r = rand_written r'.
Proof.
  intros H H' E. unfold getConnectionID in E. cbn [fst] in E.
  apply EncodeToString_injective in E.
  rewrite !randomBytes_filled in E by assumption. exact E.
Qed.

(** X16: a failure of the random source is printed and does not stop
    [getConnectionID]; when nothing was written the identifier is the
    encoding of sixteen zero bytes, the same for every such call. *)
Theorem getConnectionID_when_rand_fails r e :
  rand_err r = Some e ->
  rand_written r = [] ->
  getConnectionID r = ("AAAAAAAAAAAAAAAAAAAAAA==", [e]).
Proof.
  intros He Hw. unfold getConnectionID, randomBytes. rewrite He, Hw.
  reflexivity.
Qed.

(** X17: [negotiateHandler] answers every method other than POST (the
    comparison is exact) with status 400, encodes nothing and does not draw
    an identifier; a POST writes no status and gives the encoder one
    response, with a new identifier of 24 characters and the WebSockets
    transport in Text and Binary format. *)
Theorem negotiateHandler_answers w Method r encodeErr :
  let a := negotiateHandler w Method r encodeErr in
  (String.eqb Method "POST" = false ->
   a = (mkResponseWriter (rw_status w ++ [400]) (rw_encoded w), []))
  /\ (String.eqb Method "POST" = true ->
      rw_status (fst a) = rw_status w
      /\ exists response,
           rw_encoded (fst a) = rw_encoded w ++ [response]
           /\ ConnectionID response = fst (getConnectionID r)
           /\ String.length (ConnectionID response) = 24
           /\ AvailableTransports response
              = [mkAvailableTransport "WebSockets" ["Text"; "Binary"]]).
Proof.
  unfold negotiateHandler. split; intros ->; cbn [negb]; [reflexivity|].
  pose proof (getConnectionID_length r) as L.
  destruct (getConnectionID r) as [id printed]. cbn in *.
  split; [reflexivity|]. eexists. split; [reflexivity|]. cbn. auto.
Qed.

(** X18: the identifier of a websocket connection is the [id] of the query
    when there is one, and a new identifier of 24 characters otherwise; it
    is never empty. *)
Theorem websocketConnectionID_never_empty queryID r :
  0 < String.length (websocketConnectionID queryID r)
  /\ (0 < String.length queryID -> websocketConnectionID queryID r = queryID)
  /\ (String.length queryID = 0 ->
      websocketConnectionID queryID r = fst (getConnectionID r)
      /\ String.length (websocketConnectionID queryID r) = 24).
Proof.
  pose proof (getConnectionID_length r) as L.
  unfold websocketConnectionID.
  destruct (Nat.eqb_spec (String.length queryID) 0) as [E|E].
  - rewrite L. split; [lia|]. split; [lia|auto].
  - split; [lia|]. split; [reflexivity|lia].
Qed.

(** ** The further properties at concrete inputs *)

Lemma ctx_ended_for_ever_witness :
  ctx (run (thresholdCodec 50)
         [OpStart; OpUpstreamCancel context_DeadlineExceeded;
          OpSend CallPing 3%Z (WriteReturns None) None OpFirst; OpAbort]
         (Abort (fresh 32)))
  = Some context_Canceled.
Proof.
  exact (ctx_ended_for_ever (thresholdCodec 50)
           [OpStart; OpUpstreamCancel context_DeadlineExceeded;
            OpSend CallPing 3%Z (WriteReturns None) None OpFirst; OpAbort]
           (Abort (fresh 32)) context_Canceled eq_refl).
Defined.

Lemma engine_context_follows_transport_witness :
  isSome
    (ctx (run (thresholdCodec 50)
            [@OpStart string; OpUpstreamCancel context_DeadlineExceeded]
            (newHubConnection None 32)))
  = true.
Proof.
  exact (engine_context_follows_transport (thresholdCodec 50)
           [@OpStart string; OpUpstreamCancel context_DeadlineExceeded]
           None 32 context_DeadlineExceeded eq_refl).
Defined.

Lemma lifecycle_written_by_Start_and_listener_witness :
  let ops :=
    [OpAbort; OpSend CallPing 3%Z (WriteReturns None) None OpFirst;
     OpClose "bye" false (WriteReturns None);
     OpReceive [ok_read first32] OpFirst] in
  let c := registered [1; 2] (started 32) in
  IsConnected (run (thresholdCodec 50) ops c) = true
  /\ abortChans (run (thresholdCodec 50) ops c) = [1; 2]
  /\ notified (run (thresholdCodec 50) ops c) = [].
Proof.
  exact (lifecycle_written_by_Start_and_listener (thresholdCodec 50)
           [OpAbort; OpSend CallPing 3%Z (WriteReturns None) None OpFirst;
            OpClose "bye" false (WriteReturns None);
            OpReceive [ok_read first32] OpFirst]
           (registered [1; 2] (started 32)) eq_refl).
Defined.

Lemma guardedSend_success_witness :
  exists message,
    guardedSend CallPing 9%Z (WriteReturns None) None OpFirst (started 32)
    = (Returns None,
       set_protocol (protocol (started 32) ++ [message])
         (set_lastWriteStamp 9%Z (started 32))).
Proof.
  exact (guardedSend_success CallPing 9%Z OpFirst (started 32)
           eq_refl eq_refl).
Defined.

Lemma guardedSend_failed_write_aborts_witness :
  let r := guardedSend CallPing 9%Z
             (WriteReturns (Some (io_error "broken pipe"))) None OpFirst
             (started 32) in
  fst r = Returns (Some (io_error "broken pipe"))
  /\ ctx (snd r) = Some context_Canceled.
Proof.
  exact (guardedSend_failed_write_aborts CallPing 9%Z OpFirst (started 32)
           (io_error "broken pipe") eq_refl eq_refl).
Defined.

Lemma guardedSend_after_listener_rejected_witness :
  let c' :=
    run (thresholdCodec 50)
      [OpClose "bye" false (WriteReturns None); OpAbort; OpListener;
       OpReceive [ok_read first32] OpFirst]
      (abortListener (Abort (started 32))) in
  let r := guardedSend CallPing 9%Z (WriteReturns None) None OpFirst c' in
  fst r = Returns (Some (Wrapped "hubConnection canceled" context_Canceled))
  /\ protocol (snd r) = protocol c'.
Proof.
  exact (guardedSend_after_listener_rejected (thresholdCodec 50) CallPing
           9%Z (WriteReturns None) None OpFirst
           [OpClose "bye" false (WriteReturns None); OpAbort; OpListener;
            OpReceive [ok_read first32] OpFirst]
           (Abort (started 32)) context_Canceled eq_refl eq_refl eq_refl).
Defined.

Lemma Receive_returns_codec_result_witness :
  let r := Receive (thresholdCodec 50) [ok_read first32; ok_read last18]
             OpFirst (started 32) in
  rcv_conn r = started 32
  /\ ((rcv_result r = Blocks /\ rcv_reads r = 3)
      \/ (exists buf,
            rm_complete (thresholdCodec 50 buf) = true
            /\ rcv_result r
               = Returns (rm_message (thresholdCodec 50 buf),
                          rm_err (thresholdCodec 50 buf))
            /\ rcv_reads r <= 2)).
Proof.
  exact (Receive_returns_codec_result (thresholdCodec 50)
           [ok_read first32; ok_read last18] OpFirst (started 32)
           eq_refl eq_refl).
Defined.

Lemma Receive_zero_cap_never_completes_witness :
  Receive (thresholdCodec 50) [ok_read first32; ok_read last18] OpFirst
    (started 0)
  = mkReceived Blocks (started 0) 3.
Proof.
  exact (Receive_zero_cap_never_completes (thresholdCodec 50)
           [ok_read first32; ok_read last18] OpFirst (started 0)
           eq_refl eq_refl eq_refl eq_refl eq_refl).
Defined.

Lemma Receive_failed_read_aborts_witness :
  let r := Receive (thresholdCodec 50)
             [ok_read part10a; failed_read "connection reset by peer"]
             OpFirst (started 32) in
  rcv_reads r = 2
  /\ rcv_conn r = Abort (started 32)
  /\ ctx (rcv_conn r) = Some context_Canceled
  /\ exists n,
       rcv_result r
       = Returns (IInt n, Some (io_error "connection reset by peer")).
Proof.
  exact (proj1 (Receive_failed_read_aborts (thresholdCodec 50))
           [ok_read part10a] (failed_read "connection reset by peer") [] []
           (io_error "connection reset by peer") OpFirst (started 32)
           eq_refl eq_refl eq_refl eq_refl).
Defined.

Lemma Receive_offers_both_reads_witness :
  Receive (thresholdCodec 50) [ok_read first32; ok_read last18] OpFirst
    (started 32)
  = mkReceived
      (Returns (rm_message (thresholdCodec 50 (first32 ++ last18)),
                rm_err (thresholdCodec 50 (first32 ++ last18))))
      (started 32) 2.
Proof.
  apply (Receive_offers_both_reads (thresholdCodec 50) first32 last18
           OpFirst (started 32)); try reflexivity; cbn; lia.
Defined.

Lemma getConnectionID_injective_witness :
  rand_written (mkRandRead (bytes "0123456789abcdef") None)
  = rand_written (mkRandRead (bytes "0123456789abcdef")
                    (Some (io_error "late")))
  .
Proof.
  exact (getConnectionID_injective
           (mkRandRead (bytes "0123456789abcdef") None)
           (mkRandRead (bytes "0123456789abcdef") (Some (io_error "late")))
           eq_refl eq_refl eq_refl).
Defined.

Lemma getConnectionID_when_rand_fails_witness :
  getConnectionID (mkRandRead [] (Some (io_error "no entropy")))
  = ("AAAAAAAAAAAAAAAAAAAAAA==", [io_error "no entropy"]).
Proof.
  exact (getConnectionID_when_rand_fails
           (mkRandRead [] (Some (io_error "no entropy")))
           (io_error "no entropy") eq_refl eq_refl).
Defined.

Lemma negotiateHandler_answers_witness :
  negotiateHandler (mkResponseWriter [] []) "GET"
    (mkRandRead (bytes "0123456789abcdef") None) None
  = (mkResponseWriter [400] [], []).
Proof.
  exact (proj1 (negotiateHandler_answers (mkResponseWriter [] []) "GET"
                  (mkRandRead (bytes "0123456789abcdef") None) None)
           eq_refl).
Defined.

Lemma websocketConnectionID_never_empty_witness :
  websocketConnectionID "client-7" (mkRandRead [] None) = "client-7".
Proof.
  apply (proj1 (proj2 (websocketConnectionID_never_empty "client-7"
                         (mkRandRead [] None)))).
  cbn. lia.
Defined.
